(** * Reverse-mode automatic differentiation over scalars

    A shallow embedding of [operations.py] and [value.py].

    - Python floats are IEEE-754 binary64 numbers: Rocq's primitive floats.
      [value] and [grad] hold floats, the type the source annotates.
    - Python objects have identity and mutable fields.  The nodes of the
      computation graph live in a store (a list indexed by creation order);
      a reference is an index into it, and [id(v)] is that index.
    - Exceptions are values of [Except]; code that touches the store runs
      in a state-and-exception monad that keeps the store when it raises,
      as Python keeps the objects mutated so far.
    - What Python itself provides ([float(...)], [**], the [math] module and
      user-supplied callables) is a parameter, the class [PyRuntime]. *)

From Stdlib Require Import ZArith Floats Lia.
From stdpp Require Import base option list gmap strings pretty.

(** ** Exceptions *)

(** [Stuck] is not a Python exception: it is the outcome of the model when
    a reference that was never allocated is read, or when a traversal
    exceeds its bound.  Neither happens on a well-formed store. *)
Inductive Exn := TypeError | ValueError | ZeroDivisionError | OverflowError | Stuck.

Inductive Except (A : Type) := Ok (a : A) | Raise (e : Exn).
Arguments Ok {A} a.
Arguments Raise {A} e.

#[global] Instance Except_ret : MRet Except := @Ok.
#[global] Instance Except_bind : MBind Except := λ A B f m,
  match m with Ok a => f a | Raise e => Raise e end.

(** ** Data model *)

(** The closed set of operation kinds (one class per kind in the source). *)
Inductive Operation :=
  Add | Mul | Neg | Sub | Div | Pow | Exp | Log | Sin | Cos | Tan | Cot | Sinh | Cosh | Tanh | Coth.

Abbreviation Ref := nat.

(** A callable handed to [Value(..., backward=f)]; [code] names it. *)
Inductive Callable := UserCallable (code : nat).

(** The attributes of a [Value] object.  [_backward = None] stands for the
    default [lambda: None]. *)
Record Value := mkValue {
  value : float;
  grad : float;
  op : option Operation;
  prev : list Ref;
  _backward : option Callable;
  label : option string
}.

Abbreviation Heap := (list Value).

Definition with_grad (g : float) (n : Value) : Value :=
  {| value := value n; grad := g; op := op n; prev := prev n;
     _backward := _backward n; label := label n |}.

(** ** The Python runtime *)

Class PyRuntime := {
  (** objects that are not instances of [Value] *)
  PyObj : Type;
  (** [float(o)] *)
  py_float : PyObj → Except float;
  (** [a ** b] on floats.  (Where Python answers with a complex number the
      result is outside this model of float-valued nodes.) *)
  float_pow : float → float → Except float;
  math_exp : float → Except float;
  math_log : float → Except float;
  math_sin : float → Except float;
  math_cos : float → Except float;
  math_tan : float → Except float;
  math_sinh : float → Except float;
  math_cosh : float → Except float;
  math_tanh : float → Except float;
  (** calling a user-supplied callable, with whatever it does to the store *)
  call : Callable → Heap → Heap * Except unit
}.

(** [a / b] on floats: Python raises when the divisor compares equal to zero. *)
Definition truediv (a b : float) : Except float :=
  if (b =? 0)%float then Raise ZeroDivisionError else Ok (a / b)%float.

(** ** operations.py *)

Module Operation.
Section ops.
Context `{PyRuntime}.
Local Open Scope float_scope.

(** The arity each class fixes in the signature of [forward]. *)
Definition arity (op : Operation) : nat :=
  match op with
  | Add | Mul | Sub | Div | Pow => 2
  | _ => 1
  end.

(** [forward] of each class; a call with the wrong number of inputs is a
    [TypeError]. *)
Definition forward (op : Operation) (inputs : list float) : Except float :=
  match op, inputs with
  | Add, [a; b] => Ok (a + b)
  | Mul, [a; b] => Ok (a * b)
  | Neg, [a] => Ok (- a)
  | Sub, [a; b] => Ok (a - b)
  | Div, [a; b] => truediv a b
  | Pow, [a; b] => float_pow a b
  | Exp, [x] => math_exp x
  | Log, [x] => math_log x
  | Sin, [x] => math_sin x
  | Cos, [x] => math_cos x
  | Tan, [x] => math_tan x
  | Cot, [x] => t ← math_tan x; truediv 1 t
  | Sinh, [x] => math_sinh x
  | Cosh, [x] => math_cosh x
  | Tanh, [x] => math_tanh x
  | Coth, [x] => t ← math_tanh x; truediv 1 t
  | _, _ => Raise TypeError
  end.

(** [backward] of each class, with the same convention. *)
Definition backward (op : Operation) (output_grad : float) (inputs : list float)
  : Except (list float) :=
  match op, inputs with
  | Add, [a; b] => Ok [output_grad; output_grad]
  | Mul, [a; b] => Ok [output_grad * b; output_grad * a]
  | Neg, [a] => Ok [- output_grad]
  | Sub, [a; b] => Ok [output_grad; - output_grad]
  | Div, [a; b] =>
      da ← truediv output_grad b;
      db ← truediv (- output_grad * a) (b * b);
      Ok [da; db]
  | Pow, [a; b] =>
      p ← float_pow a (b - 1);
      let da := output_grad * b * p in
      db ← (if 0 <? a
            then q ← float_pow a b; l ← math_log a; Ok (output_grad * q * l)
            else Ok 0);
      Ok [da; db]
  | Exp, [x] => e ← math_exp x; Ok [output_grad * e]
  | Log, [x] => d ← truediv output_grad x; Ok [d]
  | Sin, [x] => c ← math_cos x; Ok [output_grad * c]
  | Cos, [x] => s ← math_sin x; Ok [- output_grad * s]
  | Tan, [x] => c ← math_cos x; c2 ← float_pow c 2; d ← truediv output_grad c2; Ok [d]
  | Cot, [x] => s ← math_sin x; s2 ← float_pow s 2; d ← truediv (- output_grad) s2; Ok [d]
  | Sinh, [x] => c ← math_cosh x; Ok [output_grad * c]
  | Cosh, [x] => s ← math_sinh x; Ok [output_grad * s]
  | Tanh, [x] => t ← math_tanh x; t2 ← float_pow t 2; Ok [output_grad * (1 - t2)]
  | Coth, [x] => s ← math_sinh x; s2 ← float_pow s 2; d ← truediv (- output_grad) s2; Ok [d]
  | _, _ => Raise TypeError
  end.

(** [__str__] of each class: the symbol that [visualize] draws. *)
Definition __str__ (op : Operation) : string :=
  match op with
  | Add => "+" | Mul => "*" | Neg => "neg" | Sub => "-" | Div => "/" | Pow => "**"
  | Exp => "exp" | Log => "log" | Sin => "sin" | Cos => "cos" | Tan => "tan"
  | Cot => "cot" | Sinh => "sinh" | Cosh => "cosh" | Tanh => "tanh" | Coth => "coth"
  end%string.
End ops.
End Operation.

(** ** value.py *)

(** Computations on the store.  The store that a raising computation leaves
    behind is kept. *)
Definition M (A : Type) : Type := Heap → Heap * Except A.

#[global] Instance M_ret : MRet M := λ A a h, (h, Ok a).
#[global] Instance M_bind : MBind M := λ A B f m h,
  match m h with
  | (h', Ok a) => f a h'
  | (h', Raise e) => (h', Raise e)
  end.

Definition lift {A} (r : Except A) : M A := λ h, (h, r).

(** Reading the object behind a reference. *)
Definition read (r : Ref) : M Value := λ h,
  (h, match h !! r with Some n => Ok n | None => Raise Stuck end).

(** A new object; its identity is the next free index. *)
Definition alloc (n : Value) : M Ref := λ h, (h ++ [n], Ok (length h)).

(** [r.grad = g] *)
Definition set_grad (r : Ref) (g : float) : M unit := λ h,
  match h !! r with
  | Some _ => (alter (with_grad g) r h, Ok tt)
  | None => (h, Raise Stuck)
  end.

(** Operands as an operator receives them: an instance of [Value], or any
    other Python object. *)
Inductive Any `{PyRuntime} := IsValue (r : Ref) | NotValue (o : PyObj).

Module Value.
Section methods.
Context `{PyRuntime}.

Definition __init__ (value : float) (prev : list Ref) (op : option Operation)
    (backward : option Callable) (label : option string) : M Ref :=
  alloc {| value := value; grad := 0; op := op; prev := prev;
           _backward := backward; label := label |}.

(** The first two lines of every binary operator:
    [if not isinstance(other, Value): other = Value(float(other))]. *)
Definition coerce (other : Any) : M Ref :=
  match other with
  | IsValue r => mret r
  | NotValue o => x ← lift (py_float o); __init__ x [] None None None
  end.

Definition __add__ (self : Ref) (other : Any) : M Ref :=
  other ← coerce other;
  let op := Add in
  s ← read self; o ← read other;
  value ← lift (Operation.forward op [value s; value o]);
  __init__ value [self; other] (Some op) None None.

Definition __radd__ (self : Ref) (other : Any) : M Ref := __add__ self other.

Definition __mul__ (self : Ref) (other : Any) : M Ref :=
  other ← coerce other;
  let op := Mul in
  s ← read self; o ← read other;
  value ← lift (Operation.forward op [value s; value o]);
  __init__ value [self; other] (Some op) None None.

Definition __rmul__ (self : Ref) (other : Any) : M Ref := __mul__ self other.

Definition __neg__ (self : Ref) : M Ref :=
  let op := Neg in
  s ← read self;
  value ← lift (Operation.forward op [value s]);
  __init__ value [self] (Some op) None None.

Definition __sub__ (self : Ref) (other : Any) : M Ref :=
  other ← coerce other;
  let op := Sub in
  s ← read self; o ← read other;
  value ← lift (Operation.forward op [value s; value o]);
  __init__ value [self; other] (Some op) None None.

Definition __rsub__ (self : Ref) (other : Any) : M Ref :=
  other ← coerce other;
  let op := Sub in
  o ← read other; s ← read self;
  value ← lift (Operation.forward op [value o; value s]);
  __init__ value [other; self] (Some op) None None.

Definition __truediv__ (self : Ref) (other : Any) : M Ref :=
  other ← coerce other;
  let op := Div in
  s ← read self; o ← read other;
  value ← lift (Operation.forward op [value s; value o]);
  __init__ value [self; other] (Some op) None None.

Definition __rtruediv__ (self : Ref) (other : Any) : M Ref :=
  other ← coerce other;
  let op := Div in
  o ← read other; s ← read self;
  value ← lift (Operation.forward op [value o; value s]);
  __init__ value [other; self] (Some op) None None.

Definition __pow__ (self : Ref) (other : Any) : M Ref :=
  other ← coerce other;
  let op := Pow in
  s ← read self; o ← read other;
  value ← lift (Operation.forward op [value s; value o]);
  __init__ value [self; other] (Some op) None None.

Definition __rpow__ (self : Ref) (other : Any) : M Ref :=
  other ← coerce other;
  let op := Pow in
  o ← read other; s ← read self;
  value ← lift (Operation.forward op [value o; value s]);
  __init__ value [other; self] (Some op) None None.

(** The unary methods [exp], [log], [sin], ... differ in the class they
    instantiate only. *)
Definition unary (op : Operation) (self : Ref) : M Ref :=
  s ← read self;
  value ← lift (Operation.forward op [value s]);
  __init__ value [self] (Some op) None None.

Definition exp := unary Exp.
Definition log := unary Log.
Definition sin := unary Sin.
Definition cos := unary Cos.
Definition tan := unary Tan.
Definition cot := unary Cot.
Definition sinh := unary Sinh.
Definition cosh := unary Cosh.
Definition tanh := unary Tanh.
Definition coth := unary Coth.

(** [self.label = label], the assignment a program makes after the fact. *)
Definition set_label (self : Ref) (label : option string) : M unit := λ h,
  match h !! self with
  | Some n =>
      (<[self := {| value := value n; grad := grad n; op := op n; prev := prev n;
                    _backward := _backward n; label := label |}]> h, Ok tt)
  | None => (h, Raise Stuck)
  end.

(** [build_topo], the closure inside [backward].  [visited] and [topo]
    are the two local variables it updates.  The recursion follows
    [prev] edges; [fuel] bounds its depth. *)
Fixpoint build_topo (fuel : nat) (h : Heap) (v : Ref) (st : gset Ref * list Ref)
  : option (gset Ref * list Ref) :=
  match fuel with
  | O => None
  | S fuel =>
      if decide (v ∈ st.1) then Some st
      else
        n ← h !! v;
        st ← (fix each (parents : list Ref) (st : gset Ref * list Ref) :=
                match parents with
                | [] => Some st
                | parent :: parents => st ← build_topo fuel h parent st; each parents st
                end) (prev n) ({[v]} ∪ st.1, st.2);
        Some (st.1, st.2 ++ [v])
  end.

(** The loop over [prev] inside [build_topo], named for the proofs. *)
Definition build_topo_each (fuel : nat) (h : Heap) :=
  fix each (parents : list Ref) (st : gset Ref * list Ref) :=
    match parents with
    | [] => Some st
    | parent :: parents => st ← build_topo fuel h parent st; each parents st
    end.

(** [for node in topo: node.grad = 0.0] *)
Fixpoint reset (topo : list Ref) : M unit :=
  match topo with
  | [] => mret tt
  | node :: topo => set_grad node 0%float;; reset topo
  end.

(** [for parent, grad in zip(v.prev, grads): parent.grad += grad] *)
Fixpoint accumulate (pairs : list (Ref * float)) : M unit :=
  match pairs with
  | [] => mret tt
  | (parent, g) :: pairs =>
      p ← read parent;
      set_grad parent (grad p + g)%float;;
      accumulate pairs
  end.

(** [v._backward()] *)
Definition run_hook (v : Value) : M unit :=
  match _backward v with
  | None => mret tt
  | Some f => call f
  end.

(** [parent.value for parent in v.prev] *)
Fixpoint values (parents : list Ref) : M (list float) :=
  match parents with
  | [] => mret []
  | parent :: parents => p ← read parent; vs ← values parents; mret (value p :: vs)
  end.

(** The body of the loop [for v in reversed(topo)]. *)
Definition propagate_node (v : Ref) : M unit :=
  n ← read v;
  match op n, prev n with
  | Some o, _ :: _ =>
      inputs ← values (prev n);
      grads ← lift (Operation.backward o (grad n) inputs);
      accumulate (zip (prev n) grads)
  | _, _ => mret tt
  end;;
  n ← read v;
  run_hook n.

(** [for v in reversed(topo): ...] *)
Fixpoint propagate (order : list Ref) : M unit :=
  match order with
  | [] => mret tt
  | v :: order => propagate_node v;; propagate order
  end.

Definition backward (self : Ref) : M unit := λ h,
  match build_topo (S (length h)) h self (∅, []) with
  | None => (h, Raise Stuck)
  | Some (_, topo) =>
      (reset topo;;
       set_grad self 1%float;;
       propagate (reverse topo)) h
  end.
End methods.
End Value.

(** ** Graphs in the store *)

(** [reachable h r v]: [v] is reached from [r] along operand ([prev]) edges. *)
Inductive reachable (h : Heap) (r : Ref) : Ref → Prop :=
  | reachable_root : reachable h r r
  | reachable_prev v n p :
      reachable h r v → h !! v = Some n → p ∈ prev n → reachable h r p.

(** Operands exist before the node that consumes them is built: in creation
    order every operand precedes its consumer, so the graph has no cycle.
    All stores that a program reaches are of this shape ([built_wf] below). *)
Definition wf_heap (h : Heap) : Prop :=
  ∀ i n, h !! i = Some n → Forall (λ p, p < i) (prev n).

(** No node reachable from [r] carries a user-supplied callable: the case
    for every node that [Value(x)] and the operators build. *)
Definition default_hooks (h : Heap) (r : Ref) : Prop :=
  ∀ v n, reachable h r v → h !! v = Some n → _backward n = None.

(** Every node of [topo] comes after all of its operands. *)
Definition operands_first (h : Heap) (topo : list Ref) : Prop :=
  ∀ i v n p, topo !! i = Some v → h !! v = Some n → p ∈ prev n →
    ∃ j, j < i ∧ topo !! j = Some p.

(** [h'] is [h] with other values in the [grad] field of nodes in [S] only. *)
Definition grad_only (S : Ref → Prop) (h h' : Heap) : Prop :=
  length h' = length h ∧
  ∀ i n, h !! i = Some n → ∃ g, h' !! i = Some (with_grad g n) ∧ (¬ S i → g = grad n).

(** The operators of [Value], with the class each instantiates and whether
    the operator is the reflected one (operands swapped). *)
Definition binary_operators `{PyRuntime}
  : list (Operation * bool * (Ref → Any → M Ref)) :=
  [ (Add, false, Value.__add__); (Add, false, Value.__radd__);
    (Mul, false, Value.__mul__); (Mul, false, Value.__rmul__);
    (Sub, false, Value.__sub__); (Sub, true, Value.__rsub__);
    (Div, false, Value.__truediv__); (Div, true, Value.__rtruediv__);
    (Pow, false, Value.__pow__); (Pow, true, Value.__rpow__) ].

Definition unary_operators `{PyRuntime} : list (Operation * (Ref → M Ref)) :=
  [ (Neg, Value.__neg__); (Exp, Value.exp); (Log, Value.log); (Sin, Value.sin);
    (Cos, Value.cos); (Tan, Value.tan); (Cot, Value.cot); (Sinh, Value.sinh);
    (Cosh, Value.cosh); (Tanh, Value.tanh); (Coth, Value.coth) ].

(** The binary operators share one shape: coerce [other], apply [forward]
    to the two values (swapped in a reflected operator), build the node.
    [binary] is that shape, for stating their properties once
    ([binary_operators_shape] below). *)
Definition binary `{PyRuntime} (o : Operation) (reflected : bool)
    (self : Ref) (other : Any) : M Ref :=
  other ← Value.coerce other;
  let a := if reflected then other else self in
  let b := if reflected then self else other in
  x ← read a; y ← read b;
  value ← lift (Operation.forward o [value x; value y]);
  Value.__init__ value [a; b] (Some o) None None.

(** What holds of a node [r] just built by operation [o] from [operands]:
    it records them in order, there are as many as [o] takes, its value is
    [forward] of their values, and its gradient is 0.0. *)
Definition built_by `{PyRuntime} (o : Operation) (operands : list Ref)
    (h : Heap) (r : Ref) : Prop :=
  ∃ n, h !! r = Some n ∧ op n = Some o ∧ prev n = operands ∧
    length operands = Operation.arity o ∧ grad n = 0%float ∧
    ∃ inputs, Forall2 (λ p x, value <$> h !! p = Some x) operands inputs ∧
      Operation.forward o inputs = Ok (value n).

(** A leaf as [Value(x)] builds it. *)
Definition leaf (x : float) : Value :=
  {| value := x; grad := 0; op := None; prev := []; _backward := None; label := None |}.

(** ** A small runtime for the examples

    [None] plays Python's [None] (which [float] rejects); powers are given
    for the exponents 0, 1 and 2; the functions of [math] are replaced by
    their first-order expansions, with the domain of [log]. *)
Definition sample_runtime : PyRuntime := {|
  PyObj := option float;
  py_float := λ o, match o with Some x => Ok x | None => Raise TypeError end;
  float_pow := λ a b,
    if (b =? 0)%float then Ok 1%float
    else if (b =? 1)%float then Ok a
    else if (b =? 2)%float then Ok (a * a)%float
    else Raise OverflowError;
  math_exp := λ x, Ok (1 + x)%float;
  math_log := λ x, if (x <=? 0)%float then Raise ValueError else Ok (x - 1)%float;
  math_sin := λ x, Ok x;
  math_cos := λ x, Ok 1%float;
  math_tan := λ x, Ok x;
  math_sinh := λ x, Ok x;
  math_cosh := λ x, Ok 1%float;
  math_tanh := λ x, Ok x;
  call := λ f h, (h, Ok tt)
|}.

(** [x = Value(2.0); y = Value(3.0); z = x * y + x], the store after
    construction (scenario 1 of the specification). *)
Definition sample_heap : Heap :=
  [ leaf 2; leaf 3;
    {| value := 6; grad := 0; op := Some Mul; prev := [0; 1]; _backward := None; label := None |};
    {| value := 8; grad := 0; op := Some Add; prev := [2; 0]; _backward := None; label := None |} ].

(** The state of [build_topo] between two calls: [topo] has no duplicates,
    its nodes are marked visited, each comes after its operands, and below
    the bound [b] every visited node has been placed already (the nodes
    visited but not yet placed are the callers, which come later in
    creation order). *)
Definition dfs_inv (h : Heap) (b : nat) (st : gset Ref * list Ref) : Prop :=
  NoDup st.2 ∧ (∀ u, u ∈ st.2 → u ∈ st.1) ∧ operands_first h st.2 ∧
  (∀ u, u < b → u ∈ st.1 → u ∈ st.2).

(** A call extends the state by the nodes [new]: appended to [topo], added
    to [visited]. *)
Definition dfs_ext (st st' : gset Ref * list Ref) (new : list Ref) : Prop :=
  st'.2 = st.2 ++ new ∧ (∀ u, u ∈ st'.1 ↔ u ∈ st.1 ∨ u ∈ new).

(** No node of the store carries a user-supplied callable. *)
Definition plain (h : Heap) : Prop := ∀ i n, h !! i = Some n → _backward n = None.

(** The stores a program reaches with [Value(x)], [Value(x, label=...)],
    the operators and methods of [Value], assignments to [label], and
    [backward()]. *)
Inductive built `{PyRuntime} : Heap → Prop :=
  | built_empty : built []
  | built_leaf h x lbl h' r :
      built h → Value.__init__ x [] None None lbl h = (h', r) → built h'
  | built_binary h o reflected m self other h' r :
      built h → (o, reflected, m) ∈ binary_operators →
      m self other h = (h', r) → built h'
  | built_unary h o m self h' r :
      built h → (o, m) ∈ unary_operators → m self h = (h', r) → built h'
  | built_label h self lbl h' r :
      built h → Value.set_label self lbl h = (h', r) → built h'
  | built_backward h root h' r :
      built h → Value.backward root h = (h', r) → built h'.

(** The binary64 numbers 1.0 and 2.0, as mantissa and exponent. *)
Definition SF_one : spec_float := S754_finite false 4503599627370496 (-52).
Definition SF_two : spec_float := S754_finite false 4503599627370496 (-51).

(** Every node of the store is either a leaf, or holds in [value] what the
    [forward] of its operation gives on the values of its operands. *)
Definition consistent `{PyRuntime} (h : Heap) : Prop :=
  ∀ i n, h !! i = Some n →
    match op n with
    | Some o =>
        ∃ inputs, Forall2 (λ p x, value <$> h !! p = Some x) (prev n) inputs ∧
          Operation.forward o inputs = Ok (value n)
    | None => prev n = []
    end.





(** ** [visualize]

    The method draws on a [graphviz.Digraph]; what the library does with
    the calls is outside of the program, so the drawing is the calls made
    on that object, in order. *)
Inductive DotCall :=
  | Digraph (format : string)
  | attr (kw : option string) (attrs : list (string * string))
  | node (name label : string) (attrs : list (string * string))
  | edge (tail_name head_name : string) (attrs : list (string * string))
  | render (filename : string) (view cleanup : bool).

(** What [visualize] asks of the interpreter: the identity [id(v)] of a
    node, which no two nodes alive at one time share, and the format
    [.4g] of a float. *)
Class PyFormat := {
  py_id : Ref → Z;
  py_id_inj :: Inj (=) (=) py_id;
  format_4g : float → string
}.

Section drawing.
Context `{PyFormat}.

Definition value_color := "#8ecae6".
Definition op_color := "#ffb703".
Definition grad_color := "#219ebc".
Definition leaf_color := "#d9ed92".

(** [str(id(v))] *)
Definition str_id (v : Ref) : string := pretty (py_id v).

(** [op_id], the name of the circle that stands for the operation of [v]. *)
Definition op_id (v : Ref) : string := "op_" +:+ pretty (py_id v).

Definition node_label (n : Value) : string :=
  match label n with
  | Some l => "<v> " +:+ l +:+ "|<g> grad=" +:+ format_4g (grad n)
  | None => "<v> value=" +:+ format_4g (value n) +:+ "|<g> grad=" +:+ format_4g (grad n)
  end.

(** The closure [add_nodes] of [visualize]: [visited] is its set of
    identities, here the set of the references that have them, and the
    calls on [dot] are appended to the second component.  [fuel] bounds
    the depth of the recursion. *)
Fixpoint add_nodes (fuel : nat) (h : Heap) (v : Ref) (st : gset Ref * list DotCall)
  : option (gset Ref * list DotCall) :=
  match fuel with
  | O => None
  | S fuel =>
      if decide (v ∈ st.1) then Some st
      else
        n ← h !! v;
        let color := if prev n is [] then leaf_color else value_color in
        let st := ({[v]} ∪ st.1,
                   st.2 ++ [node (str_id v) (node_label n) [("fillcolor", color)]]) in
        match op n with
        | Some o =>
            let st := (st.1,
                       st.2 ++ [node (op_id v) (Operation.__str__ o)
                                  [("shape", "circle"); ("fillcolor", op_color);
                                   ("fontsize", "16"); ("fontcolor", "black")];
                                edge (op_id v) (str_id v)
                                  [("color", op_color); ("penwidth", "2")]]) in
            (fix each (parents : list Ref) (st : gset Ref * list DotCall) :=
               match parents with
               | [] => Some st
               | parent :: parents =>
                   st ← add_nodes fuel h parent st;
                   each parents
                     (st.1, st.2 ++ [edge (str_id parent) (op_id v)
                                       [("color", grad_color); ("penwidth", "2")]])
               end) (prev n) st
        | None =>
            (fix each (parents : list Ref) (st : gset Ref * list DotCall) :=
               match parents with
               | [] => Some st
               | parent :: parents => st ← add_nodes fuel h parent st; each parents st
               end) (prev n) st
        end
  end.

(** The two loops over [prev] inside [add_nodes], named for the proofs:
    [consumer] is the node whose operation the edges lead to, if it has
    one. *)
Definition add_nodes_each (fuel : nat) (h : Heap) (consumer : option Ref) :=
  fix each (parents : list Ref) (st : gset Ref * list DotCall) :=
    match parents with
    | [] => Some st
    | parent :: parents =>
        st ← add_nodes fuel h parent st;
        each parents
          (st.1, st.2 ++ match consumer with
                         | Some v => [edge (str_id parent) (op_id v)
                                        [("color", grad_color); ("penwidth", "2")]]
                         | None => []
                         end)
    end.

(** [visualize]: the calls it makes on [dot], unless the graph is not in
    the store. *)
Definition visualize (self : Ref) (filename format : string) (h : Heap)
  : option (list DotCall) :=
  let dot := [Digraph format;
              attr None [("bgcolor", "white")];
              attr (Some "node") [("shape", "record"); ("style", "filled");
                                  ("fontname", "Helvetica"); ("fontsize", "12")]] in
  st ← add_nodes (S (length h)) h self (∅, dot);
  Some (st.2 ++ [render filename false true]).

(** The calls that [add_nodes] makes for one node: its box, and if it has
    an operation the circle of the operation, the edge from the circle to
    the box, and an edge to the circle from each operand. *)
Definition calls_of (h : Heap) (v : Ref) : list DotCall :=
  match h !! v with
  | None => []
  | Some n =>
      node (str_id v) (node_label n)
        [("fillcolor", if prev n is [] then leaf_color else value_color)] ::
      match op n with
      | None => []
      | Some o =>
          node (op_id v) (Operation.__str__ o)
            [("shape", "circle"); ("fillcolor", op_color);
             ("fontsize", "16"); ("fontcolor", "black")] ::
          edge (op_id v) (str_id v) [("color", op_color); ("penwidth", "2")] ::
          ((λ parent, edge (str_id parent) (op_id v)
                        [("color", grad_color); ("penwidth", "2")]) <$> prev n)
      end
  end.

(** The names that a list of calls declares, and the edges it draws. *)
Definition node_names (calls : list DotCall) : list string :=
  omap (λ c, match c with node name _ _ => Some name | _ => None end) calls.

Definition edges (calls : list DotCall) : list (string * string) :=
  omap (λ c, match c with edge t hd _ => Some (t, hd) | _ => None end) calls.
End drawing.

(** An interpreter for the examples: the identity of a node is its
    reference, and floats are not printed. *)
Definition sample_format : PyFormat :=
  {| py_id := Z.of_nat; format_4g := λ _, "?"%string |}.

(** * Properties *)

(** ** Running monadic code *)

Lemma bind_ok {A B} (m : M A) (f : A → M B) h h' a :
  m h = (h', Ok a) → (m ≫= f) h = f a h'.
Proof. intros E. unfold mbind, M_bind. by rewrite E. Qed.

Lemma bind_raise {A B} (m : M A) (f : A → M B) h h' e :
  m h = (h', Raise e) → (m ≫= f) h = (h', Raise e).
Proof. intros E. unfold mbind, M_bind. by rewrite E. Qed.

Lemma bind_inv {A B} (m : M A) (f : A → M B) h h2 r :
  (m ≫= f) h = (h2, r) →
  (∃ h1 a, m h = (h1, Ok a) ∧ f a h1 = (h2, r)) ∨ (∃ e, m h = (h2, Raise e) ∧ r = Raise e).
Proof.
  unfold mbind, M_bind. destruct (m h) as [h1 [a|e]] eqn:E; intros E2.
  - left. eauto.
  - right. inversion E2; subst. eauto.
Qed.

Lemma read_ok h r n : h !! r = Some n → read r h = (h, Ok n).
Proof. intros E. unfold read. by rewrite E. Qed.

Lemma read_inv h r h' res : read r h = (h', res) → h' = h.
Proof. unfold read. by inversion 1. Qed.

Lemma set_grad_ok h r g :
  is_Some (h !! r) → set_grad r g h = (alter (with_grad g) r h, Ok tt).
Proof. intros [n E]. unfold set_grad. by rewrite E. Qed.

(** Step through a bind whose first computation is known or gets destructed. *)
Tactic Notation "mstep" hyp(H) "as" ident(h1) ident(a) ident(H1) :=
  let Hr := fresh "Hr" in
  apply bind_inv in H as [(h1 & a & H1 & H) | (? & H & Hr)];
  [|first [discriminate Hr | match type of Hr with ?x = _ => subst x end | idtac]].

(** ** Nodes that differ in [grad] only *)

Lemma with_grad_same n : with_grad (grad n) n = n.
Proof. by destruct n. Qed.

Lemma grad_only_refl S h : grad_only S h h.
Proof.
  split; [done|]. intros i n E. exists (grad n). by rewrite with_grad_same.
Qed.

Lemma grad_only_trans S h1 h2 h3 :
  grad_only S h1 h2 → grad_only S h2 h3 → grad_only S h1 h3.
Proof.
  intros [L1 F1] [L2 F2]. split; [congruence|].
  intros i n E. destruct (F1 i n E) as (g & E2 & G).
  destruct (F2 i _ E2) as (g' & E3 & G'). exists g'. split; [done|].
  intros N. rewrite (G' N). simpl. by apply G.
Qed.

Lemma grad_only_mono (S T : Ref → Prop) h h' :
  (∀ i, S i → T i) → grad_only S h h' → grad_only T h h'.
Proof.
  intros ST [L F]. split; [done|]. intros i n E.
  destruct (F i n E) as (g & E' & G). exists g. split; [done|]. intros N. apply G. auto.
Qed.

Lemma grad_only_lookup S h h' i n' :
  grad_only S h h' → h' !! i = Some n' → ∃ n, h !! i = Some n ∧ n' = with_grad (grad n') n.
Proof.
  intros [L F] E.
  destruct (h !! i) as [n|] eqn:En.
  - destruct (F i n En) as (g & E' & _). exists n. split; [done|].
    rewrite E in E'. by inversion E'.
  - apply lookup_ge_None in En. apply lookup_lt_Some in E. lia.
Qed.

Lemma grad_only_prev S h h' i :
  grad_only S h h' → prev <$> h' !! i = prev <$> h !! i.
Proof.
  intros G. destruct (h' !! i) as [n'|] eqn:E.
  - destruct (grad_only_lookup _ _ _ _ _ G E) as (n & -> & ->). done.
  - destruct G as [L _]. apply lookup_ge_None in E.
    rewrite (proj2 (lookup_ge_None h i)); [done|lia].
Qed.

Lemma set_grad_grad_only r g h h' res :
  set_grad r g h = (h', res) → grad_only (λ i, i = r) h h'.
Proof.
  unfold set_grad. destruct (h !! r) as [n|] eqn:E; inversion 1; subst.
  - split; [by rewrite length_alter|]. intros i m Ei.
    destruct (decide (i = r)) as [->|N].
    + exists g. rewrite list_lookup_alter_eq, Ei. done.
    + exists (grad m). rewrite list_lookup_alter_ne; [|done].
      by rewrite with_grad_same.
  - apply grad_only_refl.
Qed.

(** ** The traversal [build_topo] *)

Lemma build_topo_unfold fuel h v st :
  Value.build_topo (S fuel) h v st =
  if decide (v ∈ st.1) then Some st
  else n ← h !! v;
       st' ← Value.build_topo_each fuel h (prev n) ({[v]} ∪ st.1, st.2);
       Some (st'.1, st'.2 ++ [v]).
Proof. reflexivity. Qed.

Lemma build_topo_each_cons fuel h p ps st :
  Value.build_topo_each fuel h (p :: ps) st =
  st1 ← Value.build_topo fuel h p st; Value.build_topo_each fuel h ps st1.
Proof. reflexivity. Qed.

Lemma reachable_trans h r v u : reachable h r v → reachable h v u → reachable h r u.
Proof. intros Hrv Hvu. induction Hvu; [done|]. by eapply reachable_prev. Qed.

Lemma reachable_parent h v n p : h !! v = Some n → p ∈ prev n → reachable h v p.
Proof. intros. eapply reachable_prev; [apply reachable_root|done..]. Qed.

Section traversal.
Variable h : Heap.
Hypothesis wf : wf_heap h.

Lemma wf_prev_lt v n p : h !! v = Some n → p ∈ prev n → p < v.
Proof.
  intros E Hp. specialize (wf v n E). rewrite Forall_forall in wf. by apply wf.
Qed.

Lemma reachable_le r v : reachable h r v → v ≤ r.
Proof.
  induction 1 as [|v n p _ IH E Hp]; [done|].
  pose proof (wf_prev_lt _ _ _ E Hp). lia.
Qed.

Lemma reachable_allocated r v : r < length h → reachable h r v → v < length h.
Proof. intros L R. apply reachable_le in R. lia. Qed.

Lemma dfs_inv_ext b st st' new :
  dfs_inv h b st → dfs_ext st st' new →
  NoDup st'.2 → operands_first h st'.2 → dfs_inv h b st'.
Proof.
  intros (_ & Hvis & _ & Hb) [Ht Hv] ND OF. repeat split; [done| |done|].
  - intros u. rewrite Ht, elem_of_app, Hv. intros [?|?]; auto.
  - intros u Hu. rewrite Ht, elem_of_app, Hv. intros [?|?]; auto.
Qed.

Lemma dfs_ext_nil st : dfs_ext st st [].
Proof.
  split; [by rewrite app_nil_r|]. intros u. split; [by left|].
  intros [?|Hu]; [done|]. by apply elem_of_nil in Hu.
Qed.

Lemma operands_first_snoc topo v n :
  operands_first h topo → h !! v = Some n → (∀ p, p ∈ prev n → p ∈ topo) →
  operands_first h (topo ++ [v]).
Proof.
  intros OF E Hp i u m p Hi Eu Hpu.
  destruct (decide (i < length topo)) as [Lt|Ge].
  - rewrite lookup_app_l in Hi by done.
    destruct (OF i u m p Hi Eu Hpu) as (j & Hj & Ej).
    exists j. split; [done|]. rewrite lookup_app_l; [done|lia].
  - rewrite lookup_app_r in Hi by lia.
    apply list_lookup_singleton_Some in Hi as [Hi ->].
    assert (m = n) as -> by congruence.
    apply Hp, list_elem_of_lookup in Hpu as [j Ej].
    exists j. split; [apply lookup_lt_Some in Ej; lia|].
    by rewrite lookup_app_l by (by eapply lookup_lt_Some).
Qed.

(** The loop over the operands, given the specification of the calls
    it makes. *)
Lemma build_topo_each_spec fuel :
  (∀ v st b, v < fuel → v < length h → v < b → dfs_inv h b st →
     ∃ st' new, Value.build_topo fuel h v st = Some st' ∧ dfs_ext st st' new ∧
       dfs_inv h b st' ∧ v ∈ st'.2 ∧ (∀ u, u ∈ new → reachable h v u)) →
  ∀ ps st b, Forall (λ p, p < fuel ∧ p < length h ∧ p < b) ps → dfs_inv h b st →
    ∃ st' new, Value.build_topo_each fuel h ps st = Some st' ∧ dfs_ext st st' new ∧
      dfs_inv h b st' ∧ (∀ p, p ∈ ps → p ∈ st'.2) ∧
      (∀ u, u ∈ new → ∃ p, p ∈ ps ∧ reachable h p u).
Proof.
  intros IH ps. induction ps as [|p ps IHps]; intros st b Hps Inv.
  - exists st, []. split; [done|]. split; [apply dfs_ext_nil|]. split; [done|].
    split; intros u Hu; by apply elem_of_nil in Hu.
  - apply Forall_cons in Hps as [(Hf & Hl & Hb) Hps].
    destruct (IH p st b Hf Hl Hb Inv) as (st1 & new1 & E1 & [Ht1 Hv1] & Inv1 & Hp1 & R1).
    destruct (IHps st1 b Hps Inv1) as (st2 & new2 & E2 & [Ht2 Hv2] & Inv2 & Hp2 & R2).
    exists st2, (new1 ++ new2). rewrite build_topo_each_cons, E1. simpl.
    split; [done|]. split; [|split; [done|split]].
    + split; [by rewrite Ht2, Ht1, app_assoc|].
      intros u. rewrite Hv2, Hv1, elem_of_app. tauto.
    + intros q [->|Hq]%elem_of_cons; [|by apply Hp2].
      rewrite Ht2, elem_of_app. by left.
    + intros u [Hu|Hu]%elem_of_app.
      * exists p. split; [left|by apply R1].
      * destruct (R2 u Hu) as (q & Hq & Rq). exists q. split; [by right|done].
Qed.

Lemma build_topo_spec fuel :
  ∀ v st b, v < fuel → v < length h → v < b → dfs_inv h b st →
    ∃ st' new, Value.build_topo fuel h v st = Some st' ∧ dfs_ext st st' new ∧
      dfs_inv h b st' ∧ v ∈ st'.2 ∧ (∀ u, u ∈ new → reachable h v u).
Proof.
  induction fuel as [|fuel IH]; intros v st b Hf Hl Hb Inv; [lia|].
  rewrite build_topo_unfold. destruct (decide (v ∈ st.1)) as [Hin|Hout].
  - exists st, []. split; [done|]. split; [apply dfs_ext_nil|]. split; [done|].
    split; [|intros u Hu; by apply elem_of_nil in Hu].
    destruct Inv as (_ & _ & _ & Hbelow). by apply Hbelow.
  - destruct (lookup_lt_is_Some_2 h v Hl) as [n E]. rewrite E. simpl.
    destruct Inv as (ND & Hvis & OF & Hbelow).
    assert (dfs_inv h v ({[v]} ∪ st.1, st.2)) as Inv0.
    { repeat split; simpl; [done| |done|].
      - intros u Hu. apply Hvis in Hu. set_solver.
      - intros u Hu [Huv|Hu']%elem_of_union.
        + apply elem_of_singleton in Huv. lia.
        + apply Hbelow; [lia|done]. }
    assert (Forall (λ p, p < fuel ∧ p < length h ∧ p < v) (prev n)) as Hps.
    { apply Forall_forall. intros p Hp. pose proof (wf_prev_lt _ _ _ E Hp). lia. }
    destruct (build_topo_each_spec fuel IH (prev n) _ v Hps Inv0)
      as (st1 & new1 & E1 & [Ht1 Hv1] & Inv1 & Hp1 & R1).
    rewrite E1. simpl in *.
    assert (∀ u, u ∈ new1 → u < v) as Hlt.
    { intros u Hu. destruct (R1 u Hu) as (p & Hp & Rp).
      apply reachable_le in Rp. pose proof (wf_prev_lt _ _ _ E Hp). lia. }
    assert (NoDup (st1.2 ++ [v])) as ND1.
    { apply NoDup_app. split; [by destruct Inv1|]. split; [|apply NoDup_singleton].
      intros u Hu Hv. apply list_elem_of_singleton in Hv as ->.
      rewrite Ht1 in Hu. apply elem_of_app in Hu as [Hu|Hu].
      - by apply Hout, Hvis.
      - apply Hlt in Hu. lia. }
    assert (operands_first h (st1.2 ++ [v])) as OF1.
    { eapply operands_first_snoc; [by destruct Inv1 as (_ & _ & ? & _)|done|done]. }
    exists (st1.1, st1.2 ++ [v]), (new1 ++ [v]). split; [done|].
    assert (dfs_ext st (st1.1, st1.2 ++ [v]) (new1 ++ [v])) as Ext.
    { split; simpl; [by rewrite Ht1, app_assoc|].
      intros u. rewrite Hv1, elem_of_app, list_elem_of_singleton.
      rewrite elem_of_union, elem_of_singleton. tauto. }
    split; [done|]. split; [|split].
    + eapply dfs_inv_ext; [|exact Ext|done|done]. by repeat split.
    + simpl. rewrite elem_of_app, list_elem_of_singleton. by right.
    + intros u [Hu|Hu]%elem_of_app;
        [|apply list_elem_of_singleton in Hu as ->; apply reachable_root].
      destruct (R1 u Hu) as (p & Hp & Rp).
      eapply reachable_trans; [by eapply reachable_parent|done].
Qed.
End traversal.

Lemma dfs_inv_init h b : dfs_inv h b (∅, []).
Proof.
  split; [apply NoDup_nil_2|]. split; [|split]; simpl.
  - intros u Hu. by apply elem_of_nil in Hu.
  - intros i v n p Hi. by rewrite lookup_nil in Hi.
  - intros u _ Hu. by apply elem_of_empty in Hu.
Qed.

(** The order [backward] works with, on a well-formed store. *)
Lemma build_topo_root h r :
  wf_heap h → r < length h →
  ∃ visited topo,
    Value.build_topo (S (length h)) h r (∅, []) = Some (visited, topo) ∧
    NoDup topo ∧ (∀ v, v ∈ topo ↔ reachable h r v) ∧ operands_first h topo.
Proof.
  intros wf L.
  destruct (build_topo_spec h wf (S (length h)) r (∅, []) (S r))
    as ([visited topo] & new & E & [Ht Hv] & Inv & Hr & R);
    [lia|done|lia|apply dfs_inv_init|].
  simpl in *. subst topo. destruct Inv as (ND & _ & OF & _). simpl in *.
  exists visited, new. split; [done|]. split; [done|]. split; [|done].
  intros v. split; [apply R|].
  induction 1 as [|v n p _ IH E' Hp]; [done|].
  apply list_elem_of_lookup in IH as [i Hi].
  destruct (OF i v n p Hi E' Hp) as (j & _ & Hj).
  apply list_elem_of_lookup. eauto.
Qed.


(** ** What [backward] writes *)

Section frame.
Context `{PyRuntime}.

Lemma reset_grad_only topo h h' res :
  Value.reset topo h = (h', res) → grad_only (λ i, i ∈ topo) h h'.
Proof.
  revert h. induction topo as [|v topo IH]; intros h E; simpl in E.
  - inversion E; subst. apply grad_only_refl.
  - mstep E as h1 a E1.
    + eapply grad_only_trans.
      * eapply grad_only_mono; [|by eapply set_grad_grad_only].
        intros i ->. left.
      * eapply grad_only_mono; [|by eapply IH]. intros i Hi. by right.
    + eapply grad_only_mono; [|by eapply set_grad_grad_only]. intros i ->. left.
Qed.

Lemma accumulate_grad_only pairs h h' res :
  Value.accumulate pairs h = (h', res) → grad_only (λ i, i ∈ pairs.*1) h h'.
Proof.
  revert h. induction pairs as [|[p g] pairs IH]; intros h E; simpl in E.
  - inversion E; subst. apply grad_only_refl.
  - mstep E as h1 n E1.
    + apply read_inv in E1 as ->. mstep E as h2 u E2.
      * eapply grad_only_trans.
        -- eapply grad_only_mono; [|by eapply set_grad_grad_only].
           intros i ->. left.
        -- eapply grad_only_mono; [|by eapply IH]. intros i Hi. by right.
      * eapply grad_only_mono; [|by eapply set_grad_grad_only]. intros i ->. left.
    + apply read_inv in E as ->. apply grad_only_refl.
Qed.

Lemma values_pure parents h h' res : Value.values parents h = (h', res) → h' = h.
Proof.
  revert h' res. induction parents as [|p parents IH]; intros h' res E; simpl in E.
  - by inversion E.
  - mstep E as h1 n E1.
    + apply read_inv in E1 as ->. mstep E as h2 vs E2.
      * apply IH in E2 as ->. by inversion E.
      * by apply IH in E.
    + by apply read_inv in E.
Qed.

Lemma zip_fst_subset (l : list Ref) (k : list float) i : i ∈ (zip l k).*1 → i ∈ l.
Proof.
  revert k. induction l as [|a l IH]; intros [|b k]; simpl; try by intros ?%elem_of_nil.
  intros [->|Hi]%elem_of_cons; [left|right; by eapply IH].
Qed.

(** One round of the loop of [propagate] on a node without a callable of
    its own: gradients are handed to the operands of [v]. *)
Lemma propagate_node_grad_only v h h' res :
  (∀ n, h !! v = Some n → _backward n = None) →
  Value.propagate_node v h = (h', res) →
  ∃ n, h !! v = Some n ∧ grad_only (λ i, i ∈ prev n) h h' ∨ h' = h.
Proof.
  intros Hk E. unfold Value.propagate_node in E.
  mstep E as h1 n E1; [|apply read_inv in E as ->; exists (leaf 0); by right].
  pose proof (read_inv _ _ _ _ E1) as ->.
  unfold read in E1. destruct (h !! v) as [n'|] eqn:En; [|done].
  assert (n' = n) as -> by (by inversion E1). clear E1.
  exists n. left. split; [done|].
  assert (∀ h2 r2, match op n, prev n with
    | Some o, _ :: _ =>
        inputs ← Value.values (prev n);
        grads ← lift (Operation.backward o (grad n) inputs);
        Value.accumulate (zip (prev n) grads)
    | _, _ => mret tt
    end h = (h2, r2) → grad_only (λ i, i ∈ prev n) h h2) as Step.
  { intros h2 r2 R. destruct (op n) as [o|]; [destruct (prev n) as [|p ps] eqn:Ep|].
    - inversion R; subst. apply grad_only_refl.
    - mstep R as h3 inputs R1.
      + apply values_pure in R1 as ->. mstep R as h4 grads R2.
        * inversion R2; subst. eapply grad_only_mono; [|by eapply accumulate_grad_only].
          intros i. apply zip_fst_subset.
        * inversion R; subst. apply grad_only_refl.
      + apply values_pure in R as ->. apply grad_only_refl.
    - inversion R; subst. apply grad_only_refl. }
  mstep E as h2 u E2; [|by eapply Step].
  apply Step in E2 as G.
  mstep E as h3 n3 E3; [|by apply read_inv in E as ->].
  pose proof (read_inv _ _ _ _ E3) as ->.
  unfold read in E3. destruct (h2 !! v) as [n2|] eqn:En2; [|done].
  assert (n2 = n3) as -> by (by inversion E3). clear E3.
  destruct (grad_only_lookup _ _ _ _ _ G En2) as (m & Em & Hm).
  assert (m = n) as -> by congruence.
  unfold Value.run_hook in E. rewrite Hm in E. simpl in E.
  rewrite (Hk n eq_refl) in E. by inversion E; subst.
Qed.

Lemma propagate_grad_only (T : Ref → Prop) order h h' res :
  (∀ v, v ∈ order → T v) →
  (∀ v n p, T v → h !! v = Some n → p ∈ prev n → T p) →
  (∀ v n, T v → h !! v = Some n → _backward n = None) →
  Value.propagate order h = (h', res) → grad_only T h h'.
Proof.
  revert h. induction order as [|v order IH]; intros h Ho Hc Hk E; simpl in E.
  - inversion E; subst. apply grad_only_refl.
  - assert (T v) as Tv by (apply Ho; left).
    assert (∀ h1 r1, Value.propagate_node v h = (h1, r1) → grad_only T h h1) as Step.
    { intros h1 r1 R. apply propagate_node_grad_only in R as (n & [[En G]| ->]).
      - eapply grad_only_mono; [|exact G]. intros i Hi. by eapply Hc.
      - apply grad_only_refl.
      - intros n En. by eapply Hk. }
    mstep E as h1 u E1; [|by eapply Step].
    apply Step in E1 as G1.
    eapply grad_only_trans; [exact G1|].
    assert (∀ u m, h1 !! u = Some m → ∃ m0, h !! u = Some m0 ∧ m = with_grad (grad m) m0) as Back.
    { intros w m. by eapply grad_only_lookup. }
    eapply IH; [| | |exact E].
    + intros w Hw. apply Ho. by right.
    + intros w m p Tw Ew Hp. destruct (Back w m Ew) as (m' & Em' & Hm).
      rewrite Hm in Hp. simpl in Hp. by eapply Hc.
    + intros w m Tw Ew. destruct (Back w m Ew) as (m' & Em' & Hm).
      rewrite Hm. simpl. by eapply Hk.
Qed.
End frame.

Lemma build_topo_unallocated fuel h r st :
  r ∉ st.1 → h !! r = None → Value.build_topo fuel h r st = None.
Proof.
  intros Hr E. destruct fuel; [done|]. rewrite build_topo_unfold.
  destruct (decide (r ∈ st.1)); [done|]. by rewrite E.
Qed.

(** [backward] changes nothing but the [grad] field of nodes reachable
    from its root. *)
Lemma backward_grad_only `{PyRuntime} h r h' res :
  wf_heap h → default_hooks h r →
  Value.backward r h = (h', res) → grad_only (reachable h r) h h'.
Proof.
  intros wf Hk E. unfold Value.backward in E.
  destruct (decide (r < length h)) as [L|L].
  - destruct (build_topo_root h r wf L) as (visited & topo & Et & ND & R & OF).
    rewrite Et in E.
    assert (grad_only (λ i, i ∈ topo) h h') as G.
    { mstep E as h1 u1 E1; [|by eapply reset_grad_only].
      apply reset_grad_only in E1 as G1.
      eapply grad_only_trans; [exact G1|].
      assert (grad_only (λ i, i ∈ topo) h h1 → ∀ u m, h1 !! u = Some m →
              ∃ m0, h !! u = Some m0 ∧ m = with_grad (grad m) m0) as Back.
      { intros G w m. by eapply grad_only_lookup. }
      assert (∀ h2 r2, set_grad r 1%float h1 = (h2, r2) → grad_only (λ i, i ∈ topo) h1 h2) as S2.
      { intros h2 r2 E2. eapply grad_only_mono; [|by eapply set_grad_grad_only].
        intros i ->. apply R, reachable_root. }
      mstep E as h2 u2 E2; [|by eapply S2].
      apply S2 in E2 as G2.
      eapply grad_only_trans; [exact G2|].
      pose proof (grad_only_trans _ _ _ _ G1 G2) as G12.
      eapply propagate_grad_only; [| | |exact E].
      + intros v Hv. simpl. by rewrite elem_of_reverse in Hv.
      + intros v n p Tv Ev Hp.
        destruct (grad_only_lookup _ _ _ _ _ G12 Ev) as (m & Em & Hm).
        rewrite Hm in Hp. simpl in Hp. apply R. eapply reachable_prev; [by apply R|done..].
      + intros v n Tv Ev.
        destruct (grad_only_lookup _ _ _ _ _ G12 Ev) as (m & Em & Hm).
        rewrite Hm. simpl. eapply Hk; [by apply R|done]. }
    eapply grad_only_mono; [|exact G]. intros i. apply R.
  - rewrite build_topo_unallocated in E.
    + inversion E; subst. apply grad_only_refl.
    + apply not_elem_of_empty.
    + apply lookup_ge_None. lia.
Qed.


(** ** Running [backward] again *)

(** The traversal reads the [prev] fields only. *)
Lemma build_topo_prev fuel h h' :
  (∀ i, prev <$> h' !! i = prev <$> h !! i) →
  ∀ v st, Value.build_topo fuel h' v st = Value.build_topo fuel h v st.
Proof.
  intros P. induction fuel as [|fuel IH]; intros v st; [done|].
  rewrite !build_topo_unfold. destruct (decide (v ∈ st.1)); [done|].
  assert (∀ ps st0, Value.build_topo_each fuel h' ps st0 = Value.build_topo_each fuel h ps st0) as Each.
  { induction ps as [|p ps IHps]; intros st0; [done|].
    rewrite !build_topo_each_cons, IH. destruct (Value.build_topo fuel h p st0); simpl; [|done].
    apply IHps. }
  specialize (P v). destruct (h' !! v) as [m'|], (h !! v) as [m|]; simpl in *; try done.
  inversion P as [P']. by rewrite P', Each.
Qed.

Section again.
Context `{PyRuntime}.

(** The reset loop, as a function of the store it starts from. *)
Lemma reset_lookup topo : ∀ h,
  (∀ v, v ∈ topo → v < length h) →
  ∃ h', Value.reset topo h = (h', Ok tt) ∧
    ∀ i, h' !! i = if decide (i ∈ topo) then with_grad 0 <$> h !! i else h !! i.
Proof.
  induction topo as [|v topo IH]; intros h L.
  - exists h. split; [done|]. intros i. destruct (decide (i ∈ [])) as [Hi|]; [|done].
    by apply elem_of_nil in Hi.
  - destruct (lookup_lt_is_Some_2 h v) as [n En]; [apply L; left|].
    destruct (IH (alter (with_grad 0) v h)) as (h' & E' & F).
    { intros u Hu. rewrite length_alter. apply L. by right. }
    exists h'. split.
    + simpl. erewrite bind_ok; [exact E'|]. by apply set_grad_ok.
    + intros i. rewrite F. destruct (decide (i = v)) as [->|N].
      * rewrite list_lookup_alter_eq, En. simpl.
        destruct (decide (v ∈ v :: topo)) as [_|N]; [|exfalso; apply N; left].
        by destruct (decide (v ∈ topo)).
      * rewrite list_lookup_alter_ne by done.
        destruct (decide (i ∈ topo)) as [Hi|Hi], (decide (i ∈ v :: topo)) as [Hi'|Hi'];
          try done.
        -- exfalso. apply Hi'. by right.
        -- by apply elem_of_cons in Hi' as [?|?].
Qed.

Lemma reset_grad_only_eq topo h h1 :
  (∀ v, v ∈ topo → v < length h) → grad_only (λ i, i ∈ topo) h h1 →
  Value.reset topo h1 = Value.reset topo h.
Proof.
  intros L [Len F].
  destruct (reset_lookup topo h L) as (h' & E & Look).
  destruct (reset_lookup topo h1) as (h1' & E1 & Look1).
  { intros v Hv. rewrite Len. by apply L. }
  rewrite E, E1. f_equal. apply list_eq. intros i. rewrite Look, Look1.
  destruct (h !! i) as [n|] eqn:En.
  - destruct (F i n En) as (g & -> & G). destruct (decide (i ∈ topo)) as [Hi|Hi]; [done|].
    by rewrite (G Hi), with_grad_same.
  - apply lookup_ge_None in En. rewrite (proj2 (lookup_ge_None h1 i)) by lia.
    by destruct (decide (i ∈ topo)).
Qed.

(** On a well-formed store without user-supplied callables under the root,
    a second call maps the store that the first call left to itself. *)
Lemma backward_again_wf (h : Heap) (r : Ref) (h1 : Heap) (res : Except unit) :
  wf_heap h → default_hooks h r →
  Value.backward r h = (h1, res) → Value.backward r h1 = (h1, res).
Proof.
  intros wf Hk E.
  { pose proof (backward_grad_only h r h1 res wf Hk E) as G.
    rewrite <- E. unfold Value.backward.
    rewrite (build_topo_prev _ h h1) by (intros i; by eapply grad_only_prev).
    destruct G as [Len F]. rewrite Len.
    destruct (decide (r < length h)) as [L|L].
    - destruct (build_topo_root h r wf L) as (visited & topo & Et & ND & R & OF).
      rewrite Et.
      assert (Value.reset topo h1 = Value.reset topo h) as Er.
      { apply reset_grad_only_eq.
        - intros v Hv. apply R in Hv. by eapply reachable_allocated.
        - eapply grad_only_mono; [|by split]. intros i. apply R. }
      unfold mbind at 1 3. unfold M_bind. by rewrite Er.
    - unfold Value.backward in E.
      assert (Value.build_topo (S (length h)) h r (∅, []) = None) as Et.
      { apply build_topo_unallocated; [apply not_elem_of_empty|].
        apply lookup_ge_None. lia. }
      rewrite Et in E |- *. by inversion E. }
Qed.
End again.

(** ** The constructors *)

Lemma wf_alloc h n :
  wf_heap h → Forall (λ p, p < length h) (prev n) → wf_heap (h ++ [n]).
Proof.
  intros wf Hn i m E. apply lookup_snoc_Some in E as [[L E]|[-> ->]]; [|done].
  eapply Forall_impl; [exact (wf i m E)|]. done.
Qed.

Section constructors.
Context `{PyRuntime}.

Lemma binary_operators_shape o reflected m :
  (o, reflected, m) ∈ binary_operators → m = binary o reflected.
Proof.
  unfold binary_operators. rewrite !elem_of_cons, elem_of_nil.
  intros Hm. repeat (destruct Hm as [Hm|Hm]; [by inversion Hm|]). done.
Qed.

Lemma unary_operators_shape o m : (o, m) ∈ unary_operators → m = Value.unary o.
Proof.
  unfold unary_operators. rewrite !elem_of_cons, elem_of_nil.
  intros Hm. repeat (destruct Hm as [Hm|Hm]; [by inversion Hm|]). done.
Qed.

Lemma binary_operators_arity o reflected m :
  (o, reflected, m) ∈ binary_operators → Operation.arity o = 2.
Proof.
  unfold binary_operators. rewrite !elem_of_cons, elem_of_nil.
  intros Hm. repeat (destruct Hm as [Hm|Hm]; [by inversion Hm|]). done.
Qed.

Lemma unary_operators_arity o m : (o, m) ∈ unary_operators → Operation.arity o = 1.
Proof.
  unfold unary_operators. rewrite !elem_of_cons, elem_of_nil.
  intros Hm. repeat (destruct Hm as [Hm|Hm]; [by inversion Hm|]). done.
Qed.

Lemma coerce_value r h : Value.coerce (IsValue r) h = (h, Ok r).
Proof. done. Qed.

Lemma coerce_literal lit h :
  Value.coerce (NotValue lit) h =
  match py_float lit with
  | Ok x => (h ++ [leaf x], Ok (length h))
  | Raise e => (h, Raise e)
  end.
Proof.
  unfold Value.coerce, mbind, M_bind, lift. by destruct (py_float lit).
Qed.

(** Building a node on top of a store. *)
Lemma build_inv o (operands : list Ref) (inputs : list float) h h' r :
  (lift (Operation.forward o inputs) ≫= λ value,
     Value.__init__ value operands (Some o) None None) h = (h', Ok r) →
  ∃ v, Operation.forward o inputs = Ok v ∧ r = length h ∧
    h' = h ++ [{| value := v; grad := 0; op := Some o; prev := operands;
                  _backward := None; label := None |}].
Proof.
  unfold mbind, M_bind, lift, Value.__init__, alloc.
  destruct (Operation.forward o inputs) as [v|e]; inversion 1; subst. by exists v.
Qed.

Lemma binary_inv o reflected self other h h' r :
  binary o reflected self other h = (h', Ok r) →
  ∃ h1 other_ref x y v,
    Value.coerce other h = (h1, Ok other_ref) ∧
    h1 !! (if reflected then other_ref else self) = Some x ∧
    h1 !! (if reflected then self else other_ref) = Some y ∧
    Operation.forward o [value x; value y] = Ok v ∧
    r = length h1 ∧
    h' = h1 ++ [{| value := v; grad := 0; op := Some o;
                   prev := [if reflected then other_ref else self;
                            if reflected then self else other_ref];
                   _backward := None; label := None |}].
Proof.
  unfold binary. intros E.
  mstep E as h1 other_ref E1.
  simpl in E. mstep E as h2 x E2.
  pose proof (read_inv _ _ _ _ E2) as ->.
  mstep E as h3 y E3.
  pose proof (read_inv _ _ _ _ E3) as ->.
  apply build_inv in E as (v & Ev & -> & ->).
  unfold read in E2, E3.
  destruct (h1 !! (if reflected then other_ref else self)) as [x'|] eqn:Ex; [|done].
  destruct (h1 !! (if reflected then self else other_ref)) as [y'|] eqn:Ey; [|done].
  inversion E2; inversion E3; subst.
  by exists h1, other_ref, x, y, v.
Qed.

Lemma unary_inv o self h h' r :
  Value.unary o self h = (h', Ok r) →
  ∃ x v, h !! self = Some x ∧ Operation.forward o [value x] = Ok v ∧ r = length h ∧
    h' = h ++ [{| value := v; grad := 0; op := Some o; prev := [self];
                  _backward := None; label := None |}].
Proof.
  unfold Value.unary. intros E.
  mstep E as h1 x E1.
  pose proof (read_inv _ _ _ _ E1) as ->.
  apply build_inv in E as (v & Ev & -> & ->).
  unfold read in E1. destruct (h !! self) as [x'|] eqn:Ex; [|done].
  inversion E1; subst. by exists x, v.
Qed.
End constructors.

Lemma lookup_snoc_old (h : Heap) (m : Value) i n : h !! i = Some n → (h ++ [m]) !! i = Some n.
Proof. intros E. rewrite lookup_app_l; [done|]. by eapply lookup_lt_Some. Qed.

Lemma lookup_snoc_new (h : Heap) (m : Value) : (h ++ [m]) !! length h = Some m.
Proof. by rewrite lookup_app_r, Nat.sub_diag by lia. Qed.

(** C7.  A node produced by an operation constructor (a binary operator,
    [neg] or a unary method) holds, when the constructor returns: the
    operand nodes in [prev], in the order in which [forward] took their
    values and as many as the operation takes; [forward] of the
    operands' values as its [value]; and 0.0 as its [grad].  It is a new
    node, and the nodes built before are as they were.  (A literal
    operand is the leaf that the operator wraps it in.  [__rsub__],
    [__rtruediv__] and [__rpow__] put that operand first; [__radd__] and
    [__rmul__] call [__add__] and [__mul__], which put [self] first.) *)
Theorem constructed_node `{PyRuntime} :
  (∀ (o : Operation) (reflected : bool) (m : Ref → Any → M Ref) self other (h h' : Heap) r,
     (o, reflected, m) ∈ binary_operators → m self other h = (h', Ok r) →
     ∃ other_ref,
       (other = IsValue other_ref ∨
        ∃ lit x, other = NotValue lit ∧ py_float lit = Ok x ∧
          other_ref = length h ∧ h' !! other_ref = Some (leaf x)) ∧
       built_by o (if reflected then [other_ref; self] else [self; other_ref]) h' r ∧
       (∀ i n, h !! i = Some n → h' !! i = Some n) ∧ h !! r = None)
  ∧
  (∀ (o : Operation) (m : Ref → M Ref) self (h h' : Heap) r,
     (o, m) ∈ unary_operators → m self h = (h', Ok r) →
     built_by o [self] h' r ∧
     (∀ i n, h !! i = Some n → h' !! i = Some n) ∧ h !! r = None).
Proof.
  split.
  - intros o reflected m self other h h' r Hm E.
    rewrite (binary_operators_shape _ _ _ Hm) in E.
    apply binary_inv in E as (h1 & other_ref & x & y & v & Ec & Ex & Ey & Ev & -> & ->).
    exists other_ref.
    assert ((other = IsValue other_ref ∧ h1 = h) ∨
            ∃ lit z, other = NotValue lit ∧ py_float lit = Ok z ∧
              other_ref = length h ∧ h1 = h ++ [leaf z]) as Hc.
    { destruct other as [r'|lit].
      - rewrite coerce_value in Ec. inversion Ec; subst. by left.
      - rewrite coerce_literal in Ec. destruct (py_float lit) as [z|e] eqn:Ez; [|done].
        inversion Ec; subst. right. by exists lit, z. }
    split; [|split; [|split]].
    + destruct Hc as [[-> _]|(lit & z & -> & Ez & -> & ->)]; [by left|right].
      exists lit, z. repeat split; try done.
      apply lookup_snoc_old, lookup_snoc_new.
    + eexists. split; [apply lookup_snoc_new|]. simpl.
      split; [done|]. split; [by destruct reflected|].
      split; [rewrite (binary_operators_arity _ _ _ Hm); by destruct reflected|].
      split; [done|]. exists [value x; value y]. split; [|done].
      destruct reflected; repeat constructor;
        by erewrite lookup_snoc_old by done.
    + intros i n Ei. apply lookup_snoc_old.
      destruct Hc as [[_ ->]|(lit & z & _ & _ & _ & ->)]; [done|by apply lookup_snoc_old].
    + apply lookup_ge_None.
      destruct Hc as [[_ ->]|(lit & z & _ & _ & _ & ->)]; [done|].
      rewrite length_app. simpl. lia.
  - intros o m self h h' r Hm E.
    rewrite (unary_operators_shape _ _ Hm) in E.
    apply unary_inv in E as (x & v & Ex & Ev & -> & ->).
    split; [|split].
    + eexists. split; [apply lookup_snoc_new|]. simpl.
      split; [done|]. split; [done|].
      split; [by rewrite (unary_operators_arity _ _ Hm)|].
      split; [done|]. exists [value x]. split; [|done].
      repeat constructor. by erewrite lookup_snoc_old by done.
    + intros i n Ei. by apply lookup_snoc_old.
    + by apply lookup_ge_None.
Qed.

(** The operators keep the store well formed. *)
Lemma binary_operators_wf `{PyRuntime} (o : Operation) (reflected : bool)
    (m : Ref → Any → M Ref) self other (h h' : Heap) res :
  (o, reflected, m) ∈ binary_operators →
  wf_heap h → m self other h = (h', res) → wf_heap h'.
Proof.
  intros Hm wf E. rewrite (binary_operators_shape _ _ _ Hm) in E. unfold binary in E.
  assert (∀ h1 r1, Value.coerce other h = (h1, r1) → wf_heap h1) as Hc.
  { intros h1 r1 Ec. destruct other as [r'|lit].
    - rewrite coerce_value in Ec. by inversion Ec; subst.
    - rewrite coerce_literal in Ec. destruct (py_float lit); inversion Ec; subst; [|done].
      by apply wf_alloc. }
  mstep E as h1 other_ref E1; [|by eapply Hc].
  apply Hc in E1 as wf1. simpl in E.
  mstep E as h2 x E2; [|by apply read_inv in E as ->].
  pose proof (read_inv _ _ _ _ E2) as ->.
  mstep E as h3 y E3; [|by apply read_inv in E as ->].
  pose proof (read_inv _ _ _ _ E3) as ->.
  unfold read in E2, E3.
  destruct (h1 !! (if reflected then other_ref else self)) eqn:Ex; [|done].
  destruct (h1 !! (if reflected then self else other_ref)) eqn:Ey; [|done].
  apply lookup_lt_Some in Ex, Ey.
  unfold mbind, M_bind, lift, Value.__init__, alloc in E.
  destruct (Operation.forward _ _); inversion E; subst; [|done].
  apply wf_alloc; [done|]. simpl. by repeat constructor.
Qed.

Lemma unary_operators_wf `{PyRuntime} (o : Operation) (m : Ref → M Ref) self (h h' : Heap) res :
  (o, m) ∈ unary_operators → wf_heap h → m self h = (h', res) → wf_heap h'.
Proof.
  intros Hm wf E. rewrite (unary_operators_shape _ _ Hm) in E. unfold Value.unary in E.
  mstep E as h1 x E1; [|by apply read_inv in E as ->].
  pose proof (read_inv _ _ _ _ E1) as ->.
  unfold read in E1. destruct (h !! self) eqn:Ex; [|done]. apply lookup_lt_Some in Ex.
  unfold mbind, M_bind, lift, Value.__init__, alloc in E.
  destruct (Operation.forward _ _); inversion E; subst; [|done].
  apply wf_alloc; [done|]. simpl. by repeat constructor.
Qed.

Lemma init_leaf_wf x lbl h h' res :
  wf_heap h → Value.__init__ x [] None None lbl h = (h', res) → wf_heap h'.
Proof. intros wf E. inversion E; subst. by apply wf_alloc. Qed.

Lemma plain_alloc h n : plain h → _backward n = None → plain (h ++ [n]).
Proof.
  intros Hp Hn i m E. apply lookup_snoc_Some in E as [[L E]|[-> ->]]; [|done].
  by eapply Hp.
Qed.

Lemma binary_operators_plain `{PyRuntime} (o : Operation) (reflected : bool)
    (m : Ref → Any → M Ref) self other (h h' : Heap) res :
  (o, reflected, m) ∈ binary_operators →
  plain h → m self other h = (h', res) → plain h'.
Proof.
  intros Hm Hp E. rewrite (binary_operators_shape _ _ _ Hm) in E. unfold binary in E.
  assert (∀ h1 r1, Value.coerce other h = (h1, r1) → plain h1) as Hc.
  { intros h1 r1 Ec. destruct other as [r'|lit].
    - rewrite coerce_value in Ec. by inversion Ec; subst.
    - rewrite coerce_literal in Ec. destruct (py_float lit); inversion Ec; subst; [|done].
      by apply plain_alloc. }
  mstep E as h1 other_ref E1; [|by eapply Hc].
  apply Hc in E1 as Hp1. simpl in E.
  mstep E as h2 x E2; [|by apply read_inv in E as ->].
  pose proof (read_inv _ _ _ _ E2) as ->.
  mstep E as h3 y E3; [|by apply read_inv in E as ->].
  pose proof (read_inv _ _ _ _ E3) as ->.
  unfold mbind, M_bind, lift, Value.__init__, alloc in E.
  destruct (Operation.forward _ _); inversion E; subst; [|done].
  by apply plain_alloc.
Qed.

Lemma unary_operators_plain `{PyRuntime} (o : Operation) (m : Ref → M Ref) self
    (h h' : Heap) res :
  (o, m) ∈ unary_operators → plain h → m self h = (h', res) → plain h'.
Proof.
  intros Hm Hp E. rewrite (unary_operators_shape _ _ Hm) in E. unfold Value.unary in E.
  mstep E as h1 x E1; [|by apply read_inv in E as ->].
  pose proof (read_inv _ _ _ _ E1) as ->.
  unfold mbind, M_bind, lift, Value.__init__, alloc in E.
  destruct (Operation.forward _ _); inversion E; subst; [|done].
  by apply plain_alloc.
Qed.

Lemma plain_default_hooks h r : plain h → default_hooks h r.
Proof. intros Hp v n _ E. by eapply Hp. Qed.


(** ** The backward pass on the stores a program reaches *)

Lemma set_label_wf_plain self lbl h h' r :
  wf_heap h → plain h → Value.set_label self lbl h = (h', r) → wf_heap h' ∧ plain h'.
Proof.
  intros Hw Hp E. unfold Value.set_label in E.
  destruct (h !! self) as [n|] eqn:En; inversion E; subst; [|done].
  split; intros i m Ei.
  - destruct (decide (i = self)) as [->|N].
    + rewrite list_lookup_insert_eq in Ei by (by eapply lookup_lt_Some).
      inversion Ei; subst. simpl. by eapply Hw.
    + rewrite list_lookup_insert_ne in Ei by done. by eapply Hw.
  - destruct (decide (i = self)) as [->|N].
    + rewrite list_lookup_insert_eq in Ei by (by eapply lookup_lt_Some).
      inversion Ei; subst. simpl. by eapply Hp.
    + rewrite list_lookup_insert_ne in Ei by done. by eapply Hp.
Qed.

(** Every store a program reaches is well formed and plain: the two
    conditions under which the lemmas on [backward] above are stated. *)
Lemma built_wf `{PyRuntime} h : built h → wf_heap h ∧ plain h.
Proof.
  induction 1 as [|h x lbl h' r _ [IHw IHp] E|h o reflected m self other h' r _ [IHw IHp] Hm E
                  |h o m self h' r _ [IHw IHp] Hm E|h self lbl h' r _ [IHw IHp] E
                  |h root h' r _ [IHw IHp] E].
  - split; intros i n E; by rewrite lookup_nil in E.
  - split; [by eapply init_leaf_wf|]. inversion E; subst. by apply plain_alloc.
  - split; [by eapply binary_operators_wf|by eapply binary_operators_plain].
  - split; [by eapply unary_operators_wf|by eapply unary_operators_plain].
  - by eapply set_label_wf_plain.
  - apply backward_grad_only in E as G; [|done|by apply plain_default_hooks].
    split; intros i n Ei;
      destruct (grad_only_lookup _ _ _ _ _ G Ei) as (n0 & E0 & ->); simpl.
    + by eapply IHw.
    + by eapply IHp.
Qed.


(** C8.  On a graph that a program has built, a [backward()] call mutates
    only the [grad] field of nodes reachable from its root: every node of
    the store has the same [value], [op], [prev] and [label] afterwards
    (and the same callable), no node is added or removed, and nodes that
    are not reachable keep their [grad] too.  This holds whether the call
    returns or raises. *)
Theorem backward_frame `{PyRuntime} (h : Heap) (r : Ref) (h' : Heap) (res : Except unit) :
  built h →
  Value.backward r h = (h', res) →
  length h' = length h ∧
  ∀ i n, h !! i = Some n →
    ∃ n', h' !! i = Some n' ∧
      value n' = value n ∧ op n' = op n ∧ prev n' = prev n ∧ label n' = label n ∧
      _backward n' = _backward n ∧
      (¬ reachable h r i → grad n' = grad n).
Proof.
  intros [wf Hp]%built_wf E.
  destruct (backward_grad_only h r h' res wf (plain_default_hooks h r Hp) E) as [L F].
  split; [done|]. intros i n Ei. destruct (F i n Ei) as (g & E' & G).
  exists (with_grad g n). by repeat split.
Qed.

(** C3.  On a graph that a program has built, calling [r.backward()] a
    second time without modifying the graph in between leaves in every
    reachable node the [grad] that the first call left there: the second
    call maps the store to itself and ends as the first did. *)
Theorem backward_again `{PyRuntime} (h : Heap) (r : Ref) (h1 : Heap) (res : Except unit) :
  built h →
  Value.backward r h = (h1, res) →
  Value.backward r h1 = (h1, res) ∧
  ∀ h2 res2, Value.backward r h1 = (h2, res2) →
    ∀ v, reachable h r v → grad <$> h2 !! v = grad <$> h1 !! v.
Proof.
  intros [wf Hp]%built_wf E.
  pose proof (backward_again_wf h r h1 res wf (plain_default_hooks h r Hp) E) as E1.
  split; [done|]. intros h2 res2 E2 v _. congruence.
Qed.

(** C9.  When an operand of an operator is neither a [Value] nor
    something [float] converts, the operator fails at once with the error
    that [float] raised: it returns no node and leaves the store as it was,
    so the nodes built before keep their [value] and [grad]. *)
Theorem coercion_failure `{PyRuntime} (o : Operation) (reflected : bool)
    (m : Ref → Any → M Ref) (self : Ref) (lit : PyObj) (e : Exn) (h : Heap) :
  (o, reflected, m) ∈ binary_operators →
  py_float lit = Raise e →
  m self (NotValue lit) h = (h, Raise e).
Proof.
  intros Hm E. rewrite (binary_operators_shape _ _ _ Hm). unfold binary.
  erewrite bind_raise; [done|]. by rewrite coerce_literal, E.
Qed.

(** C10.  With [b] a node whose value compares equal to 0.0, [a / b]
    raises [ZeroDivisionError] during the forward evaluation and returns
    no node, for [a] a node ([a.__truediv__(b)]) and for [a] a literal
    ([b.__rtruediv__(a)]); in the second case the store holds one more
    object afterwards, the leaf that wrapped the literal. *)
Theorem division_by_zero `{PyRuntime} (h : Heap) (b : Ref) (nb : Value) :
  h !! b = Some nb → (value nb =? 0)%float = true →
  (∀ a na, h !! a = Some na →
     Value.__truediv__ a (IsValue b) h = (h, Raise ZeroDivisionError)) ∧
  (∀ lit x, py_float lit = Ok x →
     Value.__rtruediv__ b (NotValue lit) h = (h ++ [leaf x], Raise ZeroDivisionError)).
Proof.
  intros Eb Z. split.
  - intros a na Ea. unfold Value.__truediv__.
    erewrite bind_ok by apply coerce_value. simpl.
    erewrite bind_ok by (by apply read_ok). erewrite bind_ok by (by apply read_ok).
    unfold mbind, M_bind, lift. simpl. unfold truediv. by rewrite Z.
  - intros lit x Ex. unfold Value.__rtruediv__.
    erewrite bind_ok by (by rewrite coerce_literal, Ex). simpl.
    erewrite bind_ok by apply read_ok, lookup_snoc_new.
    erewrite bind_ok by (by apply read_ok, lookup_snoc_old).
    unfold mbind, M_bind, lift. simpl. unfold truediv. by rewrite Z.
Qed.

(** C6.  [math.log] raising its domain error on zero and on negative
    numbers, [log()] on a node whose value is 0.0 or negative raises that
    error during the forward evaluation, and builds no node: the store is
    as it was. *)
Theorem log_domain_error `{PyRuntime} (h : Heap) (r : Ref) (n : Value) :
  (∀ x, (x <=? 0)%float = true → math_log x = Raise ValueError) →
  h !! r = Some n → (value n <=? 0)%float = true →
  Value.log r h = (h, Raise ValueError).
Proof.
  intros Hlog E Hn. unfold Value.log, Value.unary.
  erewrite bind_ok by (by apply read_ok).
  unfold mbind, M_bind, lift. simpl. by rewrite (Hlog _ Hn).
Qed.

(** ** Running [backward] on a node over two leaves *)

Lemma run_read {B} (r : Ref) (f : Value → M B) h n :
  h !! r = Some n → (read r ≫= f) h = f n h.
Proof. intros E. by apply bind_ok, read_ok. Qed.

Lemma run_set_grad {B} (r : Ref) g (f : unit → M B) h :
  is_Some (h !! r) → (set_grad r g ≫= f) h = f tt (alter (with_grad g) r h).
Proof. intros E. by apply bind_ok, set_grad_ok. Qed.

Lemma run_ret {A B} (a : A) (f : A → M B) h : (mret a ≫= f) h = f a h.
Proof. done. Qed.

Lemma run_lift_ok {A B} (a : A) (f : A → M B) h : (lift (Ok a) ≫= f) h = f a h.
Proof. done. Qed.

Lemma run_bind_assoc {A B C} (m : M A) (f : A → M B) (g : B → M C) h :
  ((m ≫= f) ≫= g) h = (m ≫= λ a, f a ≫= g) h.
Proof. unfold mbind, M_bind. by destruct (m h) as [h1 [a|e]]. Qed.

(** Bring the next step of a computation to the front. *)
Ltac mrun := cbv beta; rewrite ?run_bind_assoc; cbv beta.

(** Lookups in a store after gradient updates. *)
Ltac lookups :=
  repeat first
    [ rewrite list_lookup_alter_eq
    | rewrite list_lookup_alter_ne by congruence
    | match goal with E : ?h !! ?r = Some _ |- context [?h !! ?r] => rewrite E end ];
  simpl.

(** A node without operands is passed over by the loop of [propagate]. *)
Lemma propagate_node_leaf `{PyRuntime} {B} v n (f : unit → M B) h :
  h !! v = Some n → prev n = [] → _backward n = None →
  (Value.propagate_node v ≫= f) h = f tt h.
Proof.
  intros E P K. unfold Value.propagate_node.
  rewrite run_bind_assoc, (run_read _ _ _ _ E), P.
  assert (match op n with Some _ | _ => (mret tt : M unit) end = mret tt) as ->
    by (by destruct (op n)).
  rewrite run_bind_assoc, run_ret, run_bind_assoc, (run_read _ _ _ _ E).
  unfold Value.run_hook. by rewrite K.
Qed.

Lemma build_topo_visited fuel h v st :
  v ∈ st.1 → Value.build_topo (S fuel) h v st = Some st.
Proof. intros Hv. rewrite build_topo_unfold. by destruct (decide (v ∈ st.1)). Qed.

Lemma build_topo_unvisited fuel h v n st :
  v ∉ st.1 → h !! v = Some n →
  Value.build_topo (S fuel) h v st =
  st' ← Value.build_topo_each fuel h (prev n) ({[v]} ∪ st.1, st.2);
  Some (st'.1, st'.2 ++ [v]).
Proof.
  intros Hv E. rewrite build_topo_unfold. destruct (decide (v ∈ st.1)); [done|].
  by rewrite E.
Qed.

Lemma build_topo_each_nil fuel h st : Value.build_topo_each fuel h [] st = Some st.
Proof. done. Qed.

Lemma option_bind_Some {A B} (x : A) (f : A → option B) : Some x ≫= f = f x.
Proof. done. Qed.

(** Membership in a visited set given by unions of singletons. *)
Ltac visited :=
  simpl; rewrite ?elem_of_union, ?elem_of_singleton, ?elem_of_empty; intuition congruence.

Lemma build_topo_binary_leaves h y ny a b na nb :
  h !! y = Some ny → prev ny = [a; b] →
  h !! a = Some na → prev na = [] → h !! b = Some nb → prev nb = [] →
  ∃ visited, Value.build_topo (S (length h)) h y (∅, [])
             = Some (visited, if decide (a = b) then [a; y] else [a; b; y]).
Proof.
  intros Ey Py Ea Pa Eb Pb.
  assert (y ≠ a) as Nya by (intros ->; congruence).
  assert (y ≠ b) as Nyb by (intros ->; congruence).
  destruct (length h) as [|k] eqn:L; [apply lookup_lt_Some in Ey; lia|].
  rewrite (build_topo_unvisited _ _ _ ny) by (done || apply not_elem_of_empty).
  rewrite Py, build_topo_each_cons.
  rewrite (build_topo_unvisited _ _ _ na) by (done || visited).
  rewrite Pa, build_topo_each_nil, !option_bind_Some, build_topo_each_cons.
  destruct (decide (a = b)) as [<-|Hab].
  - rewrite build_topo_visited by visited.
    rewrite option_bind_Some, build_topo_each_nil, option_bind_Some. eauto.
  - rewrite (build_topo_unvisited _ _ _ nb) by (done || visited).
    rewrite Pb, build_topo_each_nil, !option_bind_Some, build_topo_each_nil,
      option_bind_Some. eauto.
Qed.

Lemma propagate_node_op `{PyRuntime} {B} v n o inputs grads (f : unit → M B) h :
  h !! v = Some n → op n = Some o → prev n ≠ [] →
  Value.values (prev n) h = (h, Ok inputs) →
  Operation.backward o (grad n) inputs = Ok grads →
  (Value.propagate_node v ≫= f) h =
  (Value.accumulate (zip (prev n) grads) ≫= λ _, read v ≫= λ n, Value.run_hook n ≫= f) h.
Proof.
  intros E O P V Bk. unfold Value.propagate_node.
  rewrite run_bind_assoc, (run_read _ _ _ _ E), O.
  destruct (prev n) as [|p ps] eqn:Ep; [done|].
  rewrite !run_bind_assoc. erewrite bind_ok by exact V.
  rewrite Bk, run_bind_assoc, run_lift_ok.
  unfold mbind, M_bind.
  destruct (Value.accumulate _ h) as [h1 [[]|e]]; [|done].
  by destruct (read v h1) as [h2 [n2|e]].
Qed.

Lemma values_ok `{PyRuntime} (parents : list Ref) (xs : list float) h :
  Forall2 (λ p x, value <$> h !! p = Some x) parents xs →
  Value.values parents h = (h, Ok xs).
Proof.
  induction 1 as [|p x parents xs E _ IH]; [done|]. simpl.
  destruct (h !! p) as [n|] eqn:En; [|done]. simpl in E. inversion E; subst.
  rewrite (run_read _ _ _ _ En). erewrite bind_ok by exact IH. done.
Qed.

Lemma backward_binary_leaves `{PyRuntime} h y ny o a b na nb da db :
  h !! y = Some ny → op ny = Some o → prev ny = [a; b] → _backward ny = None →
  h !! a = Some na → prev na = [] → _backward na = None →
  h !! b = Some nb → prev nb = [] → _backward nb = None →
  Operation.backward o 1 [value na; value nb] = Ok [da; db] →
  ∃ h', Value.backward y h = (h', Ok tt) ∧
    grad <$> h' !! a = Some (if decide (a = b) then (0 + da) + db else 0 + da)%float ∧
    grad <$> h' !! b = Some (if decide (a = b) then (0 + da) + db else 0 + db)%float.
Proof.
  intros Ey Oy Py Ky Ea Pa Ka Eb Pb Kb Bk.
  assert (y ≠ a) as Nya by (intros ->; congruence).
  assert (y ≠ b) as Nyb by (intros ->; congruence).
  destruct (build_topo_binary_leaves h y ny a b na nb) as [vis Et]; try done.
  unfold Value.backward. rewrite Et. clear Et.
  destruct (decide (a = b)) as [<-|Hab].
  - assert (nb = na) as -> by congruence.
    change (reverse [a; y]) with [y; a]. cbn [Value.reset Value.propagate]. eexists. split.
    mrun.
    rewrite run_set_grad by (lookups; eauto). mrun.
    rewrite run_set_grad by (lookups; eauto). mrun.
    rewrite run_ret.
    rewrite run_set_grad by (lookups; eauto). mrun.
    erewrite (propagate_node_op y _ o [value na; value na] [da; db]);
      [|lookups; reflexivity|done|simpl; by rewrite Py| |exact Bk].
    2:{ apply values_ok. simpl. rewrite Py. repeat constructor; by lookups. }
    simpl prev. rewrite Py. cbn [zip zip_with Value.accumulate]. mrun.
    erewrite run_read by (lookups; reflexivity). mrun.
    rewrite run_set_grad by (lookups; eauto). mrun.
    erewrite run_read by (lookups; reflexivity). mrun.
    rewrite run_set_grad by (lookups; eauto). mrun.
    rewrite run_ret.
    erewrite run_read by (lookups; reflexivity). mrun.
    unfold Value.run_hook at 1. simpl _backward. rewrite Ky. rewrite run_ret.
    erewrite propagate_node_leaf; [| lookups; reflexivity | done | done].
    reflexivity.
    lookups. done.
  - change (reverse [a; b; y]) with [y; b; a]. cbn [Value.reset Value.propagate]. eexists. split.
    mrun.
    rewrite run_set_grad by (lookups; eauto). mrun.
    rewrite run_set_grad by (lookups; eauto). mrun.
    rewrite run_set_grad by (lookups; eauto). mrun.
    rewrite run_ret.
    rewrite run_set_grad by (lookups; eauto). mrun.
    erewrite (propagate_node_op y _ o [value na; value nb] [da; db]);
      [|lookups; reflexivity|done|simpl; by rewrite Py| |exact Bk].
    2:{ apply values_ok. simpl. rewrite Py. repeat constructor; by lookups. }
    simpl prev. rewrite Py. cbn [zip zip_with Value.accumulate]. mrun.
    erewrite run_read by (lookups; reflexivity). mrun.
    rewrite run_set_grad by (lookups; eauto). mrun.
    erewrite run_read by (lookups; reflexivity). mrun.
    rewrite run_set_grad by (lookups; eauto). mrun.
    rewrite run_ret.
    erewrite run_read by (lookups; reflexivity). mrun.
    unfold Value.run_hook at 1. simpl _backward. rewrite Ky. rewrite run_ret.
    erewrite propagate_node_leaf; [| lookups; reflexivity | done | done].
    erewrite propagate_node_leaf; [| lookups; reflexivity | done | done].
    reflexivity.
    lookups. done.
Qed.

(** ** Facts of binary64 arithmetic *)

Section binary64.
Local Open Scope Z_scope.

Lemma bounded_inv m e :
  bounded prec emax m e = true →
  fexp prec emax (Z.pos (digits2_pos m) + e) = e ∧ e ≤ 971.
Proof.
  unfold bounded, canonical_mantissa. intros B.
  apply andb_prop in B as [C L]. apply Z.eqb_eq in C. apply Z.leb_le in L. done.
Qed.

(** Shifting out the [k] zero bits that a multiplication by [2^k] put in. *)
Lemma iter_pos_shr_shift k : ∀ m,
  SpecFloat.iter_pos shr_1 k
    {| shr_m := Z.pos (Pos.iter xO m k); shr_r := false; shr_s := false |}
  = {| shr_m := Z.pos m; shr_r := false; shr_s := false |}.
Proof.
  induction k as [k IH|k IH|]; intros m; simpl.
  - by rewrite !IH.
  - by rewrite !IH.
  - done.
Qed.

Lemma digits2_pos_shift k : ∀ m,
  Z.pos (digits2_pos (Pos.iter xO m k)) = Z.pos (digits2_pos m) + Z.pos k.
Proof.
  induction k as [k IH|k IH|]; intros m; simpl.
  - rewrite Pos2Z.inj_succ, !IH. lia.
  - rewrite !IH. lia.
  - lia.
Qed.

Lemma iter_pos_iter {A} (f : A → A) p : ∀ x, SpecFloat.iter_pos f p x = Pos.iter f x p.
Proof.
  induction p as [p IH|p IH|]; intros x; simpl.
  - by rewrite !IH, !Pos.iter_swap.
  - by rewrite !IH.
  - done.
Qed.

Lemma iter_pos_add {A} (f : A → A) p q x :
  SpecFloat.iter_pos f (p + q) x = SpecFloat.iter_pos f p (SpecFloat.iter_pos f q x).
Proof. by rewrite !iter_pos_iter, Pos.iter_add. Qed.

(** Rounding an exact product with a power of two: the factor can as well
    go to the exponent. *)
Lemma binary_round_aux_shift s p k E :
  0 ≤ fexp prec emax (Z.pos (digits2_pos p) + E) - E →
  binary_round_aux prec emax s (Z.pos (Pos.iter xO p k)) (E - Z.pos k) loc_Exact
  = binary_round_aux prec emax s (Z.pos p) E loc_Exact.
Proof.
  intros Hn. unfold binary_round_aux.
  assert (shr_fexp prec emax (Z.pos (Pos.iter xO p k)) (E - Z.pos k) loc_Exact
          = shr_fexp prec emax (Z.pos p) E loc_Exact) as ->; [|done].
  unfold shr_fexp. cbn [Zdigits2 shr_record_of_loc]. rewrite digits2_pos_shift.
  replace (Z.pos (digits2_pos p) + Z.pos k + (E - Z.pos k))
    with (Z.pos (digits2_pos p) + E) by lia.
  destruct (fexp prec emax (Z.pos (digits2_pos p) + E) - E) as [|q|q] eqn:En; [| |lia].
  - replace (fexp prec emax (Z.pos (digits2_pos p) + E) - (E - Z.pos k))
      with (Z.pos k) by lia.
    unfold shr. rewrite iter_pos_shr_shift. f_equal. lia.
  - replace (fexp prec emax (Z.pos (digits2_pos p) + E) - (E - Z.pos k))
      with (Z.pos (q + k)) by lia.
    unfold shr. rewrite iter_pos_add, iter_pos_shr_shift. f_equal. lia.
Qed.

(** A canonical mantissa is left alone. *)
Lemma binary_round_aux_canonical s m e :
  bounded prec emax m e = true →
  binary_round_aux prec emax s (Z.pos m) e loc_Exact = S754_finite s m e.
Proof.
  intros B. destruct (bounded_inv m e B) as [C L].
  unfold binary_round_aux, shr_fexp. cbn [Zdigits2 shr_record_of_loc].
  rewrite C, Z.sub_diag. cbn [shr shr_m loc_of_shr_record round_nearest_even Zdigits2].
  rewrite C, Z.sub_diag. cbn [shr shr_m shr_record_of_loc].
  change (emax - prec) with 971. apply Z.leb_le in L. by rewrite L.
Qed.

Lemma shr_1_nonneg r : 0 ≤ shr_m r → 0 ≤ shr_m (shr_1 r).
Proof. destruct r as [[|[p|p|]|p] b c]; simpl; lia. Qed.

Lemma iter_pos_shr_nonneg p : ∀ r,
  0 ≤ shr_m r → 0 ≤ shr_m (SpecFloat.iter_pos shr_1 p r).
Proof.
  induction p as [p IH|p IH|]; intros r Hr; simpl.
  - by apply IH, IH, shr_1_nonneg.
  - by apply IH, IH.
  - by apply shr_1_nonneg.
Qed.

Lemma shr_fexp_nonneg m e l :
  0 ≤ m → 0 ≤ shr_m (shr_fexp prec emax m e l).1.
Proof.
  intros Hm. unfold shr_fexp, shr.
  assert (0 ≤ shr_m (shr_record_of_loc m l)) as Hr by (by destruct l as [|[]]).
  destruct (fexp prec emax (Zdigits2 m + e) - e); simpl; [done| |done].
  by apply iter_pos_shr_nonneg.
Qed.

Lemma binary_round_aux_not_nan s m e l :
  0 ≤ m → binary_round_aux prec emax s m e l ≠ S754_nan.
Proof.
  intros Hm. unfold binary_round_aux.
  pose proof (shr_fexp_nonneg m e l Hm) as H1.
  destruct (shr_fexp prec emax m e l) as [mrs' e']. simpl in H1.
  assert (0 ≤ round_nearest_even (shr_m mrs') (loc_of_shr_record mrs')) as H2.
  { destruct (loc_of_shr_record mrs') as [|[]]; simpl; try done; [|lia].
    destruct (Z.even (shr_m mrs')); lia. }
  pose proof (shr_fexp_nonneg _ e' loc_Exact H2) as H3.
  destruct (shr_fexp prec emax _ e' loc_Exact) as [mrs'' e'']. simpl in H3.
  destruct (shr_m mrs'') as [|q|q]; [done| |lia].
  by destruct (e'' <=? emax - prec).
Qed.

Lemma SFeqb_refl X : X ≠ S754_nan → SFeqb X X = true.
Proof.
  destruct X as [s|s| |s m e]; try done; intros _; unfold SFeqb; simpl.
  - by destruct s.
  - rewrite Z.compare_refl, Pos.compare_cont_refl. by destruct s.
Qed.

Lemma SF64mul_one X : valid_binary X = true → SF64mul SF_one X = X.
Proof.
  destruct X as [s|s| |s m e]; try done; intros B. unfold SF64mul, SF_one, SFmul.
  cbn [xorb]. change (4503599627370496 * m)%positive with (Pos.iter xO m 52).
  replace (-52 + e) with (e - 52) by lia.
  rewrite binary_round_aux_shift.
  - by apply binary_round_aux_canonical.
  - destruct (bounded_inv m e B) as [C _]. rewrite C. lia.
Qed.

Lemma SF64add_self X :
  valid_binary X = true → SF64add X X = SF64mul SF_two X.
Proof.
  destruct X as [s|s| |s m e]; try (by destruct s); try done; intros B.
  destruct (bounded_inv m e B) as [C _].
  assert (0 ≤ fexp prec emax (Z.pos (digits2_pos (xO m)) + e) - e) as Hn.
  { cbn [digits2_pos]. rewrite Pos2Z.inj_succ. revert C. unfold fexp, emin.
    change prec with 53. change emax with 1024. lia. }
  unfold SF64mul, SF_two, SFmul. cbn [xorb].
  change (4503599627370496 * m)%positive with (Pos.iter xO (xO m) 51).
  replace (-51 + e) with (e - 51) by lia.
  rewrite binary_round_aux_shift by done.
  unfold SF64add, SFadd. rewrite Z.min_id. unfold shl_align at 1 2.
  rewrite Z.sub_diag. cbn [fst].
  assert (cond_Zopp s (Z.pos m) + cond_Zopp s (Z.pos m) = cond_Zopp s (Z.pos (xO m))) as ->.
  { destruct s; unfold cond_Zopp; lia. }
  assert (binary_round prec emax s (xO m) e
          = binary_round_aux prec emax s (Z.pos (xO m)) e loc_Exact) as Hr.
  { unfold binary_round, shl_align.
    by destruct (fexp prec emax (Z.pos (digits2_pos (xO m)) + e) - e); [| |lia]. }
  by destruct s; simpl; rewrite Hr.
Qed.

Lemma SF64_double X :
  valid_binary X = true → X ≠ S754_nan →
  SFeqb (SF64add (SF64add (S754_zero false) X) X) (SF64mul SF_two X) = true.
Proof.
  intros B N. destruct X as [[]|[]| |s m e]; try done.
  change (SF64add (S754_zero false) (S754_finite s m e)) with (S754_finite s m e).
  rewrite SF64add_self by done. apply SFeqb_refl.
  apply binary_round_aux_not_nan. done.
Qed.
End binary64.

Lemma float_mul_1_l (x : float) : (1 * x)%float = x.
Proof.
  apply Prim2SF_inj. rewrite mul_spec.
  change (Prim2SF 1) with SF_one. apply SF64mul_one, Prim2SF_valid.
Qed.

Lemma float_double (x : float) :
  is_nan x = false → ((0 + x) + x =? 2 * x)%float = true.
Proof.
  intros N. rewrite FloatAxioms.eqb_spec, !add_spec, mul_spec.
  change (Prim2SF 0) with (S754_zero false). change (Prim2SF 2) with SF_two.
  apply SF64_double; [apply Prim2SF_valid|].
  intros E. unfold is_nan in N. rewrite FloatAxioms.eqb_spec, E in N. done.
Qed.


(** ** Gradients of [x * x] and of [a ** b] *)

(** C1, as amended.  For every leaf [x] whose value is not NaN, building
    [y = x * x] (with [x] as both operands of the one [Mul] node) and then
    calling [y.backward()] leaves [x.grad == 2 * x.value]: the two
    contributions that reach the shared operand are summed, [x.grad] being
    [(0.0 + 1.0 * x.value) + 1.0 * x.value]. *)
Theorem square_gradient `{PyRuntime} (h : Heap) (x : Ref) (nx : Value) :
  h !! x = Some nx → op nx = None → prev nx = [] → _backward nx = None →
  is_nan (value nx) = false →
  ∃ h1 y h2 g,
    Value.__mul__ x (IsValue x) h = (h1, Ok y) ∧
    Value.backward y h1 = (h2, Ok tt) ∧
    grad <$> h2 !! x = Some g ∧
    g = (0 + 1 * value nx + 1 * value nx)%float ∧
    (g =? 2 * value nx)%float = true.
Proof.
  intros Ex Ox Px Kx N.
  set (ny := {| value := (value nx * value nx)%float; grad := 0; op := Some Mul;
                prev := [x; x]; _backward := None; label := None |}).
  assert (Value.__mul__ x (IsValue x) h = (h ++ [ny], Ok (length h))) as Em.
  { unfold Value.__mul__. erewrite bind_ok by apply coerce_value. simpl.
    by rewrite !(run_read _ _ _ _ Ex). }
  destruct (backward_binary_leaves (h ++ [ny]) (length h) ny Mul x x nx nx
              (1 * value nx) (1 * value nx)) as (h2 & Eb & Gx & _);
    try done; try (by apply lookup_snoc_old); [apply lookup_snoc_new|].
  rewrite decide_True in Gx by done.
  exists (h ++ [ny]), (length h), h2, (0 + 1 * value nx + 1 * value nx)%float.
  repeat split; try done.
  rewrite float_mul_1_l. by apply float_double.
Qed.

(** C1 as stated fails on a leaf that holds NaN: [x.grad] is NaN then, and
    NaN compares unequal to [2 * x.value]. *)
Lemma square_gradient_nan :
  ∃ h1 y h2 g,
    Value.__mul__ (H:=sample_runtime) 0 (IsValue 0) [leaf nan] = (h1, Ok y) ∧
    Value.backward (H:=sample_runtime) y h1 = (h2, Ok tt) ∧
    grad <$> h2 !! 0 = Some g ∧
    (g =? 2 * value (leaf nan))%float = false.
Proof. eexists _, _, _, _. repeat split; vm_compute; reflexivity. Qed.



(** ** Failures of [forward] reach the caller *)

(** No method catches what [forward] raises: a unary method whose forward
    evaluation fails returns that failure and builds nothing.  ([Log] and
    [Tan] fail as [math.log] and [math.tan] do; [Cot] and [Coth] fail also
    when the tangent they divide by compares equal to zero.) *)
Lemma unary_failure_surfaces `{PyRuntime} (o : Operation) (self : Ref) (n : Value)
    (e : Exn) (h : Heap) :
  h !! self = Some n → Operation.forward o [value n] = Raise e →
  Value.unary o self h = (h, Raise e).
Proof.
  intros E F. unfold Value.unary. rewrite (run_read _ _ _ _ E).
  unfold mbind, M_bind, lift. by rewrite F.
Qed.

Lemma cot_forward `{PyRuntime} (x : float) :
  Operation.forward Cot [x]
  = match math_tan x with
    | Ok t => if (t =? 0)%float then Raise ZeroDivisionError else Ok (1 / t)%float
    | Raise e => Raise e
    end.
Proof. done. Qed.

Lemma coth_forward `{PyRuntime} (x : float) :
  Operation.forward Coth [x]
  = match math_tanh x with
    | Ok t => if (t =? 0)%float then Raise ZeroDivisionError else Ok (1 / t)%float
    | Raise e => Raise e
    end.
Proof. done. Qed.


(** * Further properties *)

(** ** What the loop of [propagate] writes, node by node *)

Section propagation.
Context `{PyRuntime}.

(** [propagate] writes the gradients of operands of the nodes it is given,
    and nothing else. *)
Lemma propagate_writes (S : Ref → Prop) order h h' res :
  (∀ v n p, v ∈ order → h !! v = Some n → p ∈ prev n → S p) →
  (∀ v n, v ∈ order → h !! v = Some n → _backward n = None) →
  Value.propagate order h = (h', res) → grad_only S h h'.
Proof.
  revert h. induction order as [|v order IH]; intros h Hp Hk E; simpl in E.
  - inversion E; subst. apply grad_only_refl.
  - assert (∀ h1 r1, Value.propagate_node v h = (h1, r1) → grad_only S h h1) as Step.
    { intros h1 r1 R. apply propagate_node_grad_only in R as (n & [[En G]| ->]).
      - eapply grad_only_mono; [|exact G]. intros i Hi. eapply Hp; [left|done..].
      - apply grad_only_refl.
      - intros n En. eapply Hk; [left|done]. }
    mstep E as h1 u E1; [|by eapply Step].
    apply Step in E1 as G1.
    eapply grad_only_trans; [exact G1|].
    assert (∀ w m, h1 !! w = Some m → ∃ m0, h !! w = Some m0 ∧ m = with_grad (grad m) m0)
      as Back by (intros w m; by eapply grad_only_lookup).
    eapply IH; [| |exact E].
    + intros w m p Hw Ew Hpw. destruct (Back w m Ew) as (m' & Em' & Hm).
      rewrite Hm in Hpw. simpl in Hpw. eapply Hp; [by right|done..].
    + intros w m Hw Ew. destruct (Back w m Ew) as (m' & Em' & Hm).
      rewrite Hm. simpl. eapply Hk; [by right|done].
Qed.

Lemma propagate_app l1 l2 h :
  Value.propagate (l1 ++ l2) h = (Value.propagate l1 ≫= λ _, Value.propagate l2) h.
Proof.
  revert h. induction l1 as [|v l1 IH]; intros h; simpl; [done|].
  unfold mbind, M_bind.
  destruct (Value.propagate_node v h) as [h1 [[]|e]]; [|done]. by rewrite IH.
Qed.

(** The values read for [backward] are those in the store. *)
Lemma values_inv parents : ∀ h h' xs,
  Value.values parents h = (h', Ok xs) →
  Forall2 (λ p x, value <$> h !! p = Some x) parents xs.
Proof.
  induction parents as [|p parents IH]; intros h h' xs E; simpl in E.
  - inversion E; subst. constructor.
  - mstep E as h1 n E1. pose proof (read_inv _ _ _ _ E1) as ->.
    unfold read in E1. destruct (h !! p) as [n'|] eqn:En; [|done].
    inversion E1; subst n'. mstep E as h2 vs E2.
    pose proof (values_pure _ _ _ _ E2) as ->. inversion E; subst.
    constructor; [by rewrite En|by eapply IH].
Qed.

(** A round of the loop that ends well on a node with operands and an
    operation. *)
Lemma propagate_node_op_inv v n o h h2 :
  h !! v = Some n → op n = Some o → prev n ≠ [] → _backward n = None →
  Value.propagate_node v h = (h2, Ok tt) →
  ∃ inputs grads,
    Forall2 (λ p x, value <$> h !! p = Some x) (prev n) inputs ∧
    Operation.backward o (grad n) inputs = Ok grads ∧
    Value.accumulate (zip (prev n) grads) h = (h2, Ok tt).
Proof.
  intros E O P K R. unfold Value.propagate_node in R.
  rewrite (run_read _ _ _ _ E), O in R.
  destruct (prev n) as [|p ps] eqn:Ep; [done|]. rewrite <- Ep in *.
  assert (prev n = p :: ps) as Ep' by done.
  mstep R as h1 u R1.
  mstep R1 as h3 inputs R3. pose proof (values_pure _ _ _ _ R3) as ->.
  mstep R1 as h4 grads R4. inversion R4 as [[E4 Eb]]; subst h4.
  exists inputs, grads. split; [by eapply values_inv|]. split; [done|].
  assert (grad_only (λ i, i ∈ (zip (prev n) grads).*1) h h1) as G
    by (by eapply accumulate_grad_only).
  mstep R as h5 n5 R5. pose proof (read_inv _ _ _ _ R5) as ->.
  unfold read in R5. destruct (h1 !! v) as [n1|] eqn:En1; [|done].
  inversion R5; subst n5.
  destruct (grad_only_lookup _ _ _ _ _ G En1) as (m & Em & Hm).
  assert (m = n) as -> by congruence.
  unfold Value.run_hook in R. rewrite Hm in R. simpl in R. rewrite K in R.
  inversion R; subst. by destruct u.
Qed.

(** Adding up: an operand that occurs once among the pairs gets its
    gradient increased by the one paired with it. *)
Lemma accumulate_once pairs : ∀ h h' p k g n,
  Value.accumulate pairs h = (h', Ok tt) →
  pairs !! k = Some (p, g) →
  (∀ j g', pairs !! j = Some (p, g') → j = k) →
  h !! p = Some n →
  h' !! p = Some (with_grad (grad n + g)%float n).
Proof.
  induction pairs as [|[q gq] pairs IH]; intros h h' p k g n E Hk Hu En; [done|].
  simpl in E. mstep E as h1 nq E1. pose proof (read_inv _ _ _ _ E1) as ->.
  unfold read in E1. destruct (h !! q) as [nq'|] eqn:Eq; [|done].
  inversion E1; subst nq'. mstep E as h2 u E2.
  unfold set_grad in E2. rewrite Eq in E2. inversion E2; subst h2.
  destruct k as [|k].
  - inversion Hk; subst q gq.
    assert (nq = n) as -> by congruence.
    apply accumulate_grad_only in E as [_ F].
    destruct (F p (with_grad (grad n + g) n)) as (g' & E' & G').
    { by rewrite list_lookup_alter_eq, En. }
    rewrite E'. f_equal. simpl. rewrite G'; [done|].
    intros Hin. apply list_elem_of_fmap in Hin as ([p' g''] & Hp' & Hin). simpl in Hp'. subst p'.
    apply list_elem_of_lookup in Hin as [j Hj].
    specialize (Hu (S j) g'' Hj). done.
  - assert (q ≠ p) as Nq.
    { intros ->. by specialize (Hu 0 gq eq_refl). }
    eapply (IH _ _ p k g n E Hk).
    + intros j g' Hj. specialize (Hu (S j) g' Hj). by inversion Hu.
    + by rewrite list_lookup_alter_ne.
Qed.
End propagation.

(** ** More facts of binary64 arithmetic *)




(** ** The backward pass, taken apart *)

Section pass.
Context `{PyRuntime}.

(** [backward] is the loop of [propagate] run on the store with the
    gradients reset and the root seeded. *)
Lemma backward_seeded h r visited topo :
  Value.build_topo (S (length h)) h r (∅, []) = Some (visited, topo) →
  (∀ v, v ∈ topo → v < length h) → r < length h →
  ∃ h0,
    (∀ i, h0 !! i =
          (if decide (i = r) then with_grad 1
           else if decide (i ∈ topo) then with_grad 0 else id) <$> h !! i) ∧
    Value.backward r h = Value.propagate (reverse topo) h0.
Proof.
  intros Et Lt L.
  destruct (reset_lookup topo h Lt) as (h1 & E1 & Look).
  assert (is_Some (h1 !! r)) as [n1 En1].
  { rewrite Look. destruct (lookup_lt_is_Some_2 h r L) as [n ->].
    by destruct (decide (r ∈ topo)). }
  exists (alter (with_grad 1) r h1). split.
  - intros i. destruct (decide (i = r)) as [->|N].
    + rewrite list_lookup_alter_eq, Look.
      destruct (h !! r) as [n|]; [|by destruct (decide (r ∈ topo))].
      by destruct (decide (r ∈ topo)).
    + rewrite list_lookup_alter_ne by done. rewrite Look.
      destruct (decide (i ∈ topo)); [done|]. by destruct (h !! i).
  - unfold Value.backward. rewrite Et.
    rewrite (bind_ok _ _ _ _ _ E1). rewrite run_set_grad by done. done.
Qed.

Lemma backward_unfold h r :
  wf_heap h → r < length h →
  ∃ visited topo h0,
    Value.build_topo (S (length h)) h r (∅, []) = Some (visited, topo) ∧
    NoDup topo ∧ (∀ v, v ∈ topo ↔ reachable h r v) ∧ operands_first h topo ∧
    (∀ i, h0 !! i =
          (if decide (i = r) then with_grad 1
           else if decide (i ∈ topo) then with_grad 0 else id) <$> h !! i) ∧
    Value.backward r h = Value.propagate (reverse topo) h0.
Proof.
  intros wf L.
  destruct (build_topo_root h r wf L) as (visited & topo & Et & ND & R & OF).
  destruct (backward_seeded h r visited topo Et) as (h0 & Look & Eb); [|done|].
  { intros v Hv. apply R in Hv. by eapply reachable_allocated. }
  by exists visited, topo, h0.
Qed.

(** The seeded store has the shape of the one [backward] started from. *)
Lemma seeded_shape (f : Ref → Value → Value) (h h0 : Heap) :
  (∀ i n, f i n = with_grad (grad (f i n)) n) →
  (∀ i, h0 !! i = f i <$> h !! i) →
  grad_only (λ _, True) h h0.
Proof.
  intros Hf Look. split.
  - apply Nat.le_antisymm.
    + destruct (decide (length h0 ≤ length h)) as [|N]; [done|].
      destruct (lookup_lt_is_Some_2 h0 (length h)) as [n En]; [lia|].
      rewrite Look, (proj2 (lookup_ge_None h (length h))) in En by lia. done.
    + destruct (decide (length h ≤ length h0)) as [|N]; [done|].
      destruct (lookup_lt_is_Some_2 h (length h0)) as [n En]; [lia|].
      pose proof (Look (length h0)) as E. rewrite En in E.
      rewrite (proj2 (lookup_ge_None h0 (length h0))) in E by lia. done.
  - intros i n En. exists (grad (f i n)). split; [|tauto].
    by rewrite Look, En, <- Hf.
Qed.

Lemma backward_unfold_shape h r :
  wf_heap h → r < length h →
  ∃ visited topo h0,
    Value.build_topo (S (length h)) h r (∅, []) = Some (visited, topo) ∧
    NoDup topo ∧ (∀ v, v ∈ topo ↔ reachable h r v) ∧ operands_first h topo ∧
    (∀ i n, h !! i = Some n →
       h0 !! i = Some (if decide (i = r) then with_grad 1 n
                       else if decide (i ∈ topo) then with_grad 0 n else n)) ∧
    grad_only (λ _, True) h h0 ∧
    Value.backward r h = Value.propagate (reverse topo) h0.
Proof.
  intros wf L.
  destruct (backward_unfold h r wf L) as (visited & topo & h0 & Et & ND & R & OF & Look & E).
  exists visited, topo, h0. repeat (split; [done|]). split; [|split; [|done]].
  - intros i n En. rewrite Look, En. simpl.
    destruct (decide (i = r)); [done|]. by destruct (decide (i ∈ topo)).
  - eapply (seeded_shape (λ i, if decide (i = r) then with_grad 1
           else if decide (i ∈ topo) then with_grad 0 else id)); [|done].
    intros i n. destruct (decide (i = r)); [done|].
    destruct (decide (i ∈ topo)); [done|]. simpl. by rewrite with_grad_same.
Qed.

(** What a part of the loop writes, in terms of the store that [backward]
    started from. *)
Lemma propagate_part_writes h h1 order h2 res :
  plain h → grad_only (λ _, True) h h1 →
  Value.propagate order h1 = (h2, res) →
  grad_only (λ p, ∃ v n, v ∈ order ∧ h !! v = Some n ∧ p ∈ prev n) h1 h2.
Proof.
  intros Hk G E. eapply propagate_writes; [| |exact E].
  - intros v n p Hv Ev Hp.
    destruct (grad_only_lookup _ _ _ _ _ G Ev) as (m & Em & Hm).
    rewrite Hm in Hp. simpl in Hp. eauto.
  - intros v n Hv Ev.
    destruct (grad_only_lookup _ _ _ _ _ G Ev) as (m & Em & Hm).
    rewrite Hm. simpl. by eapply Hk.
Qed.



(** The two halves of [backward]. *)
Lemma backward_split h r visited topo h0 :
  Value.build_topo (S (length h)) h r (∅, []) = Some (visited, topo) →
  (Value.reset topo;; set_grad r 1%float) h = (h0, Ok tt) →
  Value.backward r h = Value.propagate (reverse topo) h0 ∧
  grad_only (λ _, True) h h0.
Proof.
  intros Et E0. split.
  - unfold Value.backward. rewrite Et.
    change ((Value.reset topo ≫= λ _, set_grad r 1 ≫= λ _, Value.propagate (reverse topo)) h
            = Value.propagate (reverse topo) h0).
    rewrite <- run_bind_assoc. by rewrite (bind_ok _ _ _ _ _ E0).
  - mstep E0 as h1 u E1.
    eapply grad_only_trans.
    + eapply grad_only_mono; [|by eapply reset_grad_only]. done.
    + eapply grad_only_mono; [|by eapply set_grad_grad_only]. done.
Qed.

(** In the order of the loop, a node comes before its operands. *)
Lemma reverse_split_order {A} (topo l1 l2 : list A) v u i j :
  NoDup topo → reverse topo = l1 ++ v :: l2 → u ∈ v :: l2 →
  topo !! i = Some u → topo !! j = Some v → i ≤ j.
Proof.
  intros ND Er Hu Hi Hj.
  assert (topo = reverse l2 ++ v :: reverse l1) as Et.
  { rewrite <- (reverse_involutive topo), Er, reverse_app, reverse_cons.
    by rewrite <- app_assoc. }
  assert (topo !! length l2 = Some v) as Hv.
  { rewrite Et, lookup_app_r; rewrite length_reverse; [|done].
    by rewrite Nat.sub_diag. }
  pose proof (NoDup_lookup _ _ _ _ ND Hj Hv) as ->.
  apply elem_of_cons in Hu as [->|Hu].
  - by rewrite (NoDup_lookup _ _ _ _ ND Hi Hv).
  - rewrite <- elem_of_reverse in Hu. apply list_elem_of_lookup in Hu as [i' Hi'].
    pose proof (lookup_lt_Some _ _ _ Hi') as Lt. rewrite length_reverse in Lt.
    assert (topo !! i' = Some u) as Hi'' by (by rewrite Et, lookup_app_l; [|rewrite length_reverse]).
    rewrite (NoDup_lookup _ _ _ _ ND Hi Hi''). lia.
Qed.

(** The rest of the loop, from [v] on, leaves the gradient of [v] alone. *)
Lemma propagate_rest_final h r visited topo l1 v l2 h1 h2 res :
  wf_heap h → plain h → r < length h →
  Value.build_topo (S (length h)) h r (∅, []) = Some (visited, topo) →
  reverse topo = l1 ++ v :: l2 →
  grad_only (λ _, True) h h1 →
  Value.propagate (v :: l2) h1 = (h2, res) →
  h2 !! v = h1 !! v.
Proof.
  intros wf Hk L Et Er G E.
  destruct (build_topo_root h r wf L) as (visited' & topo' & Et' & ND & R & OF).
  rewrite Et in Et'. inversion Et'; subst visited' topo'. clear Et'.
  pose proof (propagate_part_writes _ _ _ _ _ Hk G E) as [Len F].
  destruct (h1 !! v) as [n1|] eqn:E1.
  - destruct (F v n1 E1) as (g & -> & Hg). rewrite Hg, with_grad_same; [done|].
    intros (u & n & Hu & Eu & Hv).
    assert (u ∈ topo) as Hut.
    { rewrite <- elem_of_reverse, Er. apply elem_of_app. by right. }
    apply list_elem_of_lookup in Hut as [i Hi].
    destruct (OF i u n v Hi Eu Hv) as (j & Lt & Hj).
    pose proof (reverse_split_order _ _ _ _ _ _ _ ND Er Hu Hi Hj). lia.
  - apply lookup_ge_None. apply lookup_ge_None in E1. lia.
Qed.
End pass.

Section chain.
Context `{PyRuntime}.

Lemma backward_length (o : Operation) (g : float) (inputs grads : list float) :
  Operation.backward o g inputs = Ok grads →
  length inputs = Operation.arity o ∧ length grads = length inputs.
Proof.
  destruct o; destruct inputs as [|a [|b [|c l]]]; simpl; try discriminate;
    repeat match goal with
    | |- context [mbind _ ?m] => destruct m; simpl; try discriminate
    | |- context [if ?c then _ else _] => destruct c; simpl; try discriminate
    end;
    by inversion 1.
Qed.

(** The gradient that reaches an operand with one consumer. *)
Lemma backward_single_consumer h r h' v nv o p k :
  wf_heap h → plain h → r < length h →
  Value.backward r h = (h', Ok tt) →
  reachable h r v → h !! v = Some nv → op nv = Some o → prev nv !! k = Some p →
  (∀ u nu j, reachable h r u → h !! u = Some nu → prev nu !! j = Some p → u = v ∧ j = k) →
  ∃ gv inputs grads g,
    grad <$> h' !! v = Some gv ∧
    Forall2 (λ q x, value <$> h !! q = Some x) (prev nv) inputs ∧
    Operation.backward o gv inputs = Ok grads ∧
    grads !! k = Some g ∧
    grad <$> h' !! p = Some (0 + g)%float.
Proof.
  intros wf Hk L E Rv Ev Ov Pk Uniq.
  destruct (backward_unfold_shape h r wf L)
    as (visited & topo & h0 & Et & ND & R & OF & Look & G0 & Eb).
  rewrite Eb in E.
  assert (p ∈ prev nv) as Hp by (by eapply list_elem_of_lookup_2).
  pose proof (wf_prev_lt h wf _ _ _ Ev Hp) as Lpv.
  pose proof (reachable_le h wf _ _ Rv) as Lvr.
  assert (reachable h r p) as Rp by (by eapply reachable_prev).
  destruct (lookup_lt_is_Some_2 h p) as [np Ep]; [lia|].
  assert (v ∈ reverse topo) as Hv by (rewrite elem_of_reverse; by apply R).
  apply list_elem_of_split in Hv as (l1 & l2 & Er).
  assert (NoDup (l1 ++ v :: l2)) as ND' by (by rewrite <- Er, reverse_Permutation).
  apply NoDup_app in ND' as (_ & Nl1 & [Nl2 _]%NoDup_cons).
  assert (∀ u, u ∈ l1 ++ v :: l2 → reachable h r u) as Rl.
  { intros u Hu. rewrite <- Er, elem_of_reverse in Hu. by apply R. }
  assert (∀ l : list Ref, (∀ u, u ∈ l → reachable h r u) → v ∉ l →
          ¬ ∃ u n, u ∈ l ∧ h !! u = Some n ∧ p ∈ prev n) as Free.
  { intros l Hl Nv (u & nu & Hu & Eu & Hpu).
    apply list_elem_of_lookup in Hpu as [j Hj].
    destruct (Uniq u nu j (Hl u Hu) Eu Hj) as [-> _]. done. }
  rewrite Er, propagate_app in E.
  mstep E as h1 u1 E1. destruct u1.
  pose proof (propagate_part_writes _ _ _ _ _ Hk G0 E1) as G1.
  assert (grad_only (λ _, True) h h1) as G01.
  { eapply grad_only_trans; [exact G0|]. eapply grad_only_mono; [|exact G1]. done. }
  pose proof (propagate_rest_final _ _ _ _ _ _ _ _ _ _ wf Hk L Et Er G01 E) as Fin.
  simpl in E. mstep E as h2 u2 E2. destruct u2.
  destruct (proj2 G01 v nv Ev) as (gv & Ev1 & _).
  pose proof (Look p np Ep) as Ep0.
  destruct (decide (p = r)) as [|_]; [lia|].
  destruct (decide (p ∈ topo)) as [_|N]; [|by rewrite R in N].
  destruct (proj2 G1 p _ Ep0) as (g1 & Ep1 & Hg1).
  rewrite Hg1 in Ep1; cycle 1.
  { apply Free; [|intros Hv1; apply (Nl1 v Hv1); left].
    intros u Hu. apply Rl, elem_of_app. by left. }
  simpl in Ep1.
  destruct (propagate_node_op_inv v _ o h1 h2 Ev1 Ov) as (inputs & grads & Vs & Bk & Acc);
    [simpl; intros Hnil; by rewrite Hnil in Pk|simpl; by apply (Hk v nv)|done|].
  simpl in Vs, Bk, Acc.
  destruct (backward_length _ _ _ _ Bk) as [_ Lg].
  pose proof (Forall2_length _ _ _ Vs) as Li.
  destruct (lookup_lt_is_Some_2 grads k) as [g Eg].
  { rewrite Lg, <- Li. by eapply lookup_lt_Some. }
  assert (zip (prev nv) grads !! k = Some (p, g)) as Zk by (by apply lookup_zip_Some).
  assert (∀ j g', zip (prev nv) grads !! j = Some (p, g') → j = k) as Zu.
  { intros j g' [Hq _]%lookup_zip_Some. by destruct (Uniq v nv j Rv Ev Hq). }
  pose proof (accumulate_once _ _ _ _ _ _ _ Acc Zk Zu Ep1) as Ep2.
  simpl in Ep2.
  assert (grad_only (λ _, True) h h2) as G02.
  { eapply grad_only_trans; [exact G01|].
    eapply grad_only_mono; [|by eapply accumulate_grad_only]. done. }
  pose proof (propagate_part_writes _ _ _ _ _ Hk G02 E) as G2.
  destruct (proj2 G2 p _ Ep2) as (g2 & Ep' & Hg2).
  rewrite Hg2 in Ep'; cycle 1.
  { apply Free; [|done]. intros u Hu. apply Rl, elem_of_app. right. by right. }
  exists gv, inputs, grads, g. split; [by rewrite Fin, Ev1|].
  split; [|split; [done|split; [done|by rewrite Ep']]].
  eapply Forall2_impl; [exact Vs|]. intros q x Hq. simpl in Hq.
  destruct (h1 !! q) as [n1|] eqn:Eq1; [|done].
  destruct (grad_only_lookup _ _ _ _ _ G01 Eq1) as (m & Em & Hm).
  rewrite Em. rewrite Hm in Hq. done.
Qed.

(** [backward] on a node without operands. *)
Lemma backward_no_operands h r n :
  h !! r = Some n → prev n = [] → _backward n = None →
  Value.backward r h = (alter (with_grad 1) r h, Ok tt).
Proof.
  intros E P K. unfold Value.backward.
  rewrite (build_topo_unvisited _ _ _ n) by (done || apply not_elem_of_empty).
  rewrite P, build_topo_each_nil, option_bind_Some.
  cbn [fst snd app]. change (reverse [r]) with [r]. cbn [Value.reset Value.propagate].
  mrun. rewrite run_set_grad by eauto. mrun. rewrite run_ret.
  rewrite run_set_grad by (rewrite list_lookup_alter_eq, E; eauto). mrun.
  erewrite propagate_node_leaf; [|by rewrite !list_lookup_alter_eq, E|done..].
  unfold mret, M_ret. f_equal. apply list_eq. intros i.
  destruct (decide (i = r)) as [->|N].
  - rewrite !list_lookup_alter_eq. by destruct (h !! r).
  - by rewrite !list_lookup_alter_ne.
Qed.
End chain.

(** ** Values stay what [forward] made them *)

Section values.
Context `{PyRuntime}.

Lemma forward_arity (o : Operation) (inputs : list float) (v : float) :
  Operation.forward o inputs = Ok v → length inputs = Operation.arity o.
Proof. by destruct o; destruct inputs as [|a [|b [|c l]]]. Qed.

Lemma consistent_alloc h n :
  consistent h →
  match op n with
  | Some o =>
      ∃ inputs, Forall2 (λ p x, value <$> h !! p = Some x) (prev n) inputs ∧
        Operation.forward o inputs = Ok (value n)
  | None => prev n = []
  end →
  consistent (h ++ [n]).
Proof.
  intros C Hn.
  assert (∀ m, match op m with
    | Some o =>
        ∃ inputs, Forall2 (λ p x, value <$> h !! p = Some x) (prev m) inputs ∧
          Operation.forward o inputs = Ok (value m)
    | None => prev m = []
    end → match op m with
    | Some o =>
        ∃ inputs, Forall2 (λ p x, value <$> (h ++ [n]) !! p = Some x) (prev m) inputs ∧
          Operation.forward o inputs = Ok (value m)
    | None => prev m = []
    end) as Up.
  { intros m Hm. destruct (op m); [|done]. destruct Hm as (inputs & Vs & Fw).
    exists inputs. split; [|done]. eapply Forall2_impl; [exact Vs|].
    intros p x Hp. simpl in Hp. destruct (h !! p) as [np|] eqn:Ep; [|done].
    by rewrite (lookup_snoc_old _ _ _ _ Ep). }
  intros i m E. apply lookup_snoc_Some in E as [[L E]|[-> ->]]; apply Up; [|done].
  by apply (C i m).
Qed.

Lemma consistent_leaf h x : consistent h → consistent (h ++ [leaf x]).
Proof. intros C. by apply consistent_alloc. Qed.

(** Updates that keep [value], [op] and [prev] of every node. *)
Lemma consistent_same_values h h' :
  length h' = length h →
  (∀ i n, h !! i = Some n →
     ∃ n', h' !! i = Some n' ∧ value n' = value n ∧ op n' = op n ∧ prev n' = prev n) →
  consistent h → consistent h'.
Proof.
  intros Len Same C i n' E'.
  destruct (lookup_lt_is_Some_2 h i) as [n E].
  { rewrite <- Len. by eapply lookup_lt_Some. }
  destruct (Same i n E) as (n'' & E'' & Ev & Eo & Ep).
  assert (n'' = n') as -> by congruence.
  specialize (C i n E). rewrite Eo, Ep, Ev. destruct (op n); [|done].
  destruct C as (inputs & Vs & Fw). exists inputs. split; [|done].
  eapply Forall2_impl; [exact Vs|].
  intros p x Hp. simpl in Hp. destruct (h !! p) as [np|] eqn:Enp; [|done].
  destruct (Same p np Enp) as (np' & -> & Evp & _). simpl in *. congruence.
Qed.

Lemma consistent_grad_only S h h' : grad_only S h h' → consistent h → consistent h'.
Proof.
  intros [Len F]. apply consistent_same_values; [done|].
  intros i n E. destruct (F i n E) as (g & E' & _). by exists (with_grad g n).
Qed.

Lemma consistent_set_label self lbl h h' r :
  Value.set_label self lbl h = (h', r) → consistent h → consistent h'.
Proof.
  unfold Value.set_label. destruct (h !! self) as [n|] eqn:En; inversion 1; subst; [|done].
  apply consistent_same_values; [by rewrite length_insert|].
  intros i m E. destruct (decide (i = self)) as [->|N].
  - rewrite list_lookup_insert_eq by (by eapply lookup_lt_Some).
    eexists. split; [done|]. assert (m = n) as -> by congruence. done.
  - rewrite list_lookup_insert_ne by done. by exists m.
Qed.

Lemma consistent_binary (o : Operation) (reflected : bool)
    (m : Ref → Any → M Ref) self other (h h' : Heap) res :
  (o, reflected, m) ∈ binary_operators →
  consistent h → m self other h = (h', res) → consistent h'.
Proof.
  intros Hm C E. rewrite (binary_operators_shape _ _ _ Hm) in E. unfold binary in E.
  assert (∀ h1 r1, Value.coerce other h = (h1, r1) → consistent h1) as Hc.
  { intros h1 r1 Ec. destruct other as [r'|lit].
    - rewrite coerce_value in Ec. by inversion Ec; subst.
    - rewrite coerce_literal in Ec. destruct (py_float lit); inversion Ec; subst; [|done].
      by apply consistent_leaf. }
  mstep E as h1 other_ref E1; [|by eapply Hc].
  apply Hc in E1 as C1. simpl in E.
  mstep E as h2 x E2; [|by apply read_inv in E as ->].
  pose proof (read_inv _ _ _ _ E2) as ->.
  mstep E as h3 y E3; [|by apply read_inv in E as ->].
  pose proof (read_inv _ _ _ _ E3) as ->.
  unfold read in E2, E3.
  destruct (h1 !! (if reflected then other_ref else self)) as [x'|] eqn:Ex; [|done].
  destruct (h1 !! (if reflected then self else other_ref)) as [y'|] eqn:Ey; [|done].
  inversion E2; inversion E3; subst x' y'.
  unfold mbind, M_bind, lift, Value.__init__, alloc in E.
  destruct (Operation.forward _ _) as [v|e] eqn:Fw; inversion E; subst; [|done].
  apply consistent_alloc; [done|]. simpl.
  exists [value x; value y]. split; [|done].
  repeat constructor; [by rewrite Ex|by rewrite Ey].
Qed.

Lemma consistent_unary (o : Operation) (m : Ref → M Ref) self (h h' : Heap) res :
  (o, m) ∈ unary_operators → consistent h → m self h = (h', res) → consistent h'.
Proof.
  intros Hm C E. rewrite (unary_operators_shape _ _ Hm) in E. unfold Value.unary in E.
  mstep E as h1 x E1; [|by apply read_inv in E as ->].
  pose proof (read_inv _ _ _ _ E1) as ->.
  unfold read in E1. destruct (h !! self) as [x'|] eqn:Ex; [|done].
  inversion E1; subst x'.
  unfold mbind, M_bind, lift, Value.__init__, alloc in E.
  destruct (Operation.forward _ _) as [v|e] eqn:Fw; inversion E; subst; [|done].
  apply consistent_alloc; [done|]. simpl.
  exists [value x]. split; [|done]. repeat constructor. by rewrite Ex.
Qed.

Lemma built_consistent h : built h → consistent h.
Proof.
  induction 1 as [|h x lbl h' r Hb IH E|h o reflected m self other h' r Hb IH Hm E
                  |h o m self h' r Hb IH Hm E|h self lbl h' r Hb IH E
                  |h root h' r Hb IH E].
  - intros i n E. by rewrite lookup_nil in E.
  - inversion E; subst. by apply consistent_alloc.
  - by eapply consistent_binary.
  - by eapply consistent_unary.
  - by eapply consistent_set_label.
  - destruct (built_wf h Hb) as [wf Hp].
    eapply consistent_grad_only; [|exact IH].
    eapply backward_grad_only; [done|by apply plain_default_hooks|done].
Qed.
End values.

(** ** Where a failure of [backward] comes from *)

Section outcome.
Context `{PyRuntime}.





End outcome.

(** ** The drawing of [visualize] *)

Section drawing.
Context `{PyFormat}.

Lemma add_nodes_unfold fuel h v st :
  add_nodes (S fuel) h v st =
  if decide (v ∈ st.1) then Some st
  else
    n ← h !! v;
    add_nodes_each fuel h (if op n is Some _ then Some v else None) (prev n)
      ({[v]} ∪ st.1,
       st.2 ++ node (str_id v) (node_label n)
                 [("fillcolor", if prev n is [] then leaf_color else value_color)] ::
               match op n with
               | Some o =>
                   [node (op_id v) (Operation.__str__ o)
                      [("shape", "circle"); ("fillcolor", op_color);
                       ("fontsize", "16"); ("fontcolor", "black")];
                    edge (op_id v) (str_id v) [("color", op_color); ("penwidth", "2")]]
               | None => []
               end).
Proof.
  simpl. destruct (decide (v ∈ st.1)) as [|_]; [done|].
  destruct (h !! v) as [n|]; [|done]. simpl.
  destruct (op n) as [o|].
  - by rewrite <- app_assoc.
  - generalize ({[v]} ∪ st.1,
      st.2 ++ [node (str_id v) (node_label n)
                 [("fillcolor", if prev n is [] then leaf_color else value_color)]]).
    induction (prev n) as [|p ps IH]; intros st0; [done|]. simpl.
    destruct (add_nodes fuel h p st0) as [[vis1 calls1]|]; [|done]. simpl.
    by rewrite IH, app_nil_r.
Qed.

Lemma add_nodes_each_cons fuel h c p ps st :
  add_nodes_each fuel h c (p :: ps) st =
  st1 ← add_nodes fuel h p st;
  add_nodes_each fuel h c ps
    (st1.1, st1.2 ++ match c with
                     | Some v => [edge (str_id p) (op_id v)
                                    [("color", grad_color); ("penwidth", "2")]]
                     | None => []
                     end).
Proof. reflexivity. Qed.

(** [add_nodes] visits what [build_topo] visits, and makes the calls of
    each node it visits for the first time. *)
Lemma add_nodes_build_topo h fuel : ∀ v vis topo calls vis' topo',
  Value.build_topo fuel h v (vis, topo) = Some (vis', topo') →
  ∃ new body,
    topo' = topo ++ new ∧
    add_nodes fuel h v (vis, calls) = Some (vis', calls ++ body) ∧
    body ≡ₚ new ≫= calls_of h.
Proof.
  induction fuel as [|fuel IH]; intros v vis topo calls vis' topo' E; [done|].
  rewrite build_topo_unfold in E. rewrite add_nodes_unfold. simpl in *.
  destruct (decide (v ∈ vis)) as [Hv|Hv].
  { inversion E; subst. exists [], []. by rewrite !app_nil_r. }
  destruct (h !! v) as [n|] eqn:En; [|done]. simpl in *.
  set (c := if op n is Some _ then Some v else None).
  assert (∀ ps vis0 topo0 calls0 vis1 topo1,
    Value.build_topo_each fuel h ps (vis0, topo0) = Some (vis1, topo1) →
    ∃ new body,
      topo1 = topo0 ++ new ∧
      add_nodes_each fuel h c ps (vis0, calls0) = Some (vis1, calls0 ++ body) ∧
      body ≡ₚ (new ≫= calls_of h) ++
              match c with
              | Some v => (λ p, edge (str_id p) (op_id v)
                                  [("color", grad_color); ("penwidth", "2")]) <$> ps
              | None => []
              end) as Each.
  { induction ps as [|p ps IHps]; intros vis0 topo0 calls0 vis1 topo1 Eps.
    - inversion Eps; subst. exists [], []. rewrite !app_nil_r. by destruct c.
    - rewrite build_topo_each_cons in Eps.
      destruct (Value.build_topo fuel h p (vis0, topo0)) as [[vis2 topo2]|] eqn:Ep; [|done].
      simpl in Eps.
      destruct (IH _ _ _ calls0 _ _ Ep) as (new1 & body1 & -> & Ea & P1).
      rewrite add_nodes_each_cons, Ea. simpl.
      destruct (IHps _ _ (calls0 ++ body1 ++ match c with
                     | Some v => [edge (str_id p) (op_id v)
                                    [("color", grad_color); ("penwidth", "2")]]
                     | None => []
                     end) _ _ Eps) as (new2 & body2 & -> & Eb & P2).
      eexists (new1 ++ new2), _. split; [by rewrite app_assoc|].
      rewrite <- app_assoc. split.
      + rewrite Eb. by rewrite <- !app_assoc.
      + rewrite bind_app, P1, P2. destruct c as [w|]; simpl.
        * rewrite <- !app_assoc. f_equiv. apply Permutation_middle.
        * by rewrite !app_nil_r. }
  destruct (Value.build_topo_each fuel h (prev n) ({[v]} ∪ vis, topo))
    as [[vis1 topo1]|] eqn:Eps; [|done].
  simpl in E. inversion E; subst vis' topo'. clear E.
  destruct (Each _ _ _ (calls ++ node (str_id v) (node_label n)
                 [("fillcolor", if prev n is [] then leaf_color else value_color)] ::
               match op n with
               | Some o =>
                   [node (op_id v) (Operation.__str__ o)
                      [("shape", "circle"); ("fillcolor", op_color);
                       ("fontsize", "16"); ("fontcolor", "black")];
                    edge (op_id v) (str_id v) [("color", op_color); ("penwidth", "2")]]
               | None => []
               end) _ _ Eps) as (new & body & -> & Ea & P).
  eexists (new ++ [v]), _. split; [by rewrite app_assoc|]. split.
  - rewrite Ea. by rewrite <- app_assoc.
  - rewrite bind_app, P. simpl. rewrite app_nil_r. unfold calls_of at 3. rewrite En.
    subst c. destruct (op n) as [o|]; simpl.
    + by rewrite <- !Permutation_middle.
    + by rewrite <- Permutation_middle, !app_nil_r.
Qed.

(** The order [backward] works with, with the set of the visited nodes. *)
Lemma build_topo_root_visited h r :
  wf_heap h → r < length h →
  ∃ visited topo,
    Value.build_topo (S (length h)) h r (∅, []) = Some (visited, topo) ∧
    NoDup topo ∧ (∀ v, v ∈ topo ↔ reachable h r v).
Proof.
  intros wf L.
  destruct (build_topo_root h r wf L) as (visited & topo & E & ND & R & _).
  by exists visited, topo.
Qed.

Lemma visualize_body h r filename format :
  wf_heap h → r < length h →
  ∃ nodes body,
    NoDup nodes ∧ (∀ v, v ∈ nodes ↔ reachable h r v) ∧
    visualize r filename format h =
      Some ([Digraph format;
             attr None [("bgcolor", "white")];
             attr (Some "node") [("shape", "record"); ("style", "filled");
                                 ("fontname", "Helvetica"); ("fontsize", "12")]]
            ++ body ++ [render filename false true]) ∧
    body ≡ₚ nodes ≫= calls_of h.
Proof.
  intros wf L.
  destruct (build_topo_root_visited h r wf L) as (visited & topo & E & ND & R).
  destruct (add_nodes_build_topo h _ _ _ _
    [Digraph format;
     attr None [("bgcolor", "white")];
     attr (Some "node") [("shape", "record"); ("style", "filled");
                         ("fontname", "Helvetica"); ("fontsize", "12")]] _ _ E)
    as (new & body & Et & Ea & P).
  simpl in Et. subst new. exists topo, body. split; [done|]. split; [done|].
  split; [|done]. unfold visualize. rewrite Ea. simpl. done.
Qed.
End drawing.

(** ** Names in the drawing *)

(** The decimal notation of a number does not start with the letter o. *)
Lemma pretty_N_go_ne_o (x : N) (s s' : string) :
  s ≠ "o" +:+ s' → pretty_N_go x s ≠ "o" +:+ s'.
Proof.
  revert s. induction (N.lt_wf_0 x) as [x _ IH]; intros s Hs.
  destruct (decide (x = 0)%N) as [->|Hx]; [by rewrite pretty_N_go_0|].
  rewrite pretty_N_go_step by lia. apply IH; [apply N.div_lt; lia|].
  unfold pretty_N_char. by repeat case_match.
Qed.

Lemma pretty_Z_ne_o (z : Z) (s : string) : pretty z ≠ "o" +:+ s.
Proof.
  destruct z as [|p|p]; [done| |done].
  unfold pretty, pretty_Z, pretty, pretty_positive, pretty, pretty_N.
  destruct (decide (N.pos p = 0%N)); [done|]. by apply pretty_N_go_ne_o.
Qed.

Section names.
Context `{PyFormat}.

Lemma str_id_ne_op_id v w : str_id v ≠ op_id w.
Proof. unfold str_id, op_id. apply pretty_Z_ne_o. Qed.

Lemma str_id_inj v w : str_id v = str_id w → v = w.
Proof. unfold str_id. intros E. by apply (inj py_id), (inj pretty). Qed.

Lemma op_id_inj v w : op_id v = op_id w → v = w.
Proof. unfold op_id. intros E. by apply (inj py_id), (inj pretty), (inj (String.append "op_")). Qed.

Lemma node_names_bind {A} (f : A → list DotCall) (l : list A) :
  node_names (l ≫= f) = l ≫= λ x, node_names (f x).
Proof.
  induction l as [|x l IH]; [done|].
  rewrite !bind_cons. unfold node_names in *. by rewrite omap_app, IH.
Qed.

Lemma node_names_calls_of h v :
  node_names (calls_of h v) =
  match h !! v with
  | Some n => str_id v :: if op n is Some _ then [op_id v] else []
  | None => []
  end.
Proof.
  unfold calls_of. destruct (h !! v) as [n|]; [|done].
  destruct (op n) as [o|]; [|done]. unfold node_names. simpl. do 2 f_equal.
  by induction (prev n).
Qed.

(** The names that the calls of the nodes of [nodes] declare are all
    different. *)
Lemma node_names_NoDup h (nodes : list Ref) :
  NoDup nodes → NoDup (node_names (nodes ≫= calls_of h)).
Proof.
  intros ND. rewrite node_names_bind. apply NoDup_bind; [| |done].
  - intros v w name _ _. rewrite !node_names_calls_of.
    destruct (h !! v) as [nv|]; [|by intros ?%elem_of_nil].
    destruct (h !! w) as [nw|]; [|by intros _ ?%elem_of_nil].
    intros Hv Hw.
    assert (name = str_id v ∨ name = op_id v) as Nv.
    { apply elem_of_cons in Hv as [?|Hv]; [by left|right].
      destruct (op nv); [by apply list_elem_of_singleton in Hv|by apply elem_of_nil in Hv]. }
    assert (name = str_id w ∨ name = op_id w) as Nw.
    { apply elem_of_cons in Hw as [?|Hw]; [by left|right].
      destruct (op nw); [by apply list_elem_of_singleton in Hw|by apply elem_of_nil in Hw]. }
    destruct Nv as [->| ->], Nw as [E|E].
    + by apply str_id_inj.
    + by apply str_id_ne_op_id in E.
    + symmetry in E. by apply str_id_ne_op_id in E.
    + by apply op_id_inj.
  - intros v _. rewrite node_names_calls_of.
    destruct (h !! v) as [n|]; [|apply NoDup_nil_2].
    destruct (op n); [|apply NoDup_singleton].
    apply NoDup_cons. split; [|apply NoDup_singleton].
    intros E%list_elem_of_singleton. by apply str_id_ne_op_id in E.
Qed.

(** Every edge among the calls of the nodes under a root joins two names
    that these calls declare. *)
Lemma edges_declared h r (nodes : list Ref) t hd :
  wf_heap h → r < length h → (∀ v, v ∈ nodes ↔ reachable h r v) →
  (t, hd) ∈ edges (nodes ≫= calls_of h) →
  t ∈ node_names (nodes ≫= calls_of h) ∧ hd ∈ node_names (nodes ≫= calls_of h).
Proof.
  intros wf L R He.
  apply list_elem_of_omap in He as (c & Hc & Ec).
  apply list_elem_of_bind in Hc as (v & Hc & Hv).
  assert (∀ w name, w ∈ nodes → name ∈ node_names (calls_of h w) →
          name ∈ node_names (nodes ≫= calls_of h)) as Decl.
  { intros w name Hw Hn. rewrite node_names_bind. apply list_elem_of_bind. eauto. }
  unfold calls_of in Hc. destruct (h !! v) as [n|] eqn:En; [|by apply elem_of_nil in Hc].
  apply elem_of_cons in Hc as [->|Hc]; [done|].
  destruct (op n) as [o|] eqn:O; [|by apply elem_of_nil in Hc].
  assert (str_id v ∈ node_names (calls_of h v) ∧ op_id v ∈ node_names (calls_of h v))
    as [Sv Ov].
  { rewrite node_names_calls_of, En, O. split; [left|right; left]. }
  apply elem_of_cons in Hc as [->|Hc]; [done|].
  apply elem_of_cons in Hc as [->|Hc].
  { inversion Ec; subst. split; by eapply Decl. }
  apply list_elem_of_fmap in Hc as (p & -> & Hp). inversion Ec; subst.
  split; [|by eapply Decl].
  assert (reachable h r p) as Rp by (eapply reachable_prev; [by apply R|done..]).
  destruct (lookup_lt_is_Some_2 h p) as [np Ep]; [by eapply reachable_allocated|].
  apply (Decl p); [by apply R|]. rewrite node_names_calls_of, Ep. left.
Qed.
End names.

(** ** [backward] reads the graph under its root, and nothing else *)




Section in_step.
Context `{PyRuntime}.
Variable T : Ref → Prop.





End in_step.


(** ** Properties of the operations and of the backward pass *)

(** X1.  [forward] of an operation returns only when it is given as many
    inputs as the class takes, and [backward] then returns one gradient
    for each of them: the loop of [Value.backward], which pairs operands
    with gradients, leaves no operand out. *)
Theorem backward_one_gradient_per_input `{PyRuntime}
    (o : Operation) (g : float) (inputs grads : list float) :
  Operation.backward o g inputs = Ok grads →
  length inputs = Operation.arity o ∧ length grads = length inputs ∧
  ∀ v inputs', Operation.forward o inputs' = Ok v → length inputs' = length grads.
Proof.
  intros Bk. destruct (backward_length _ _ _ _ Bk) as [Li Lg].
  split; [done|]. split; [done|]. intros v inputs' Fw.
  apply forward_arity in Fw. congruence.
Qed.

(** X4.  In every store a program reaches, a node without an operation
    has no operands, and a node with an operation has as many operands as
    the operation takes and holds in [value] the [forward] of the values
    its operands hold now: values never change after construction,
    whatever calls of [backward] and assignments of labels came since. *)
Theorem value_is_forward_of_operands `{PyRuntime} (h : Heap) (i : Ref) (n : Value) :
  built h → h !! i = Some n →
  match op n with
  | Some o =>
      length (prev n) = Operation.arity o ∧
      ∃ inputs, Forall2 (λ p x, value <$> h !! p = Some x) (prev n) inputs ∧
        Operation.forward o inputs = Ok (value n)
  | None => prev n = []
  end.
Proof.
  intros Hb E. pose proof (built_consistent h Hb i n E) as C.
  destruct (op n) as [o|]; [|done]. destruct C as (inputs & Vs & Fw).
  split; [|by exists inputs].
  rewrite (Forall2_length _ _ _ Vs). by eapply forward_arity.
Qed.



(** X7.  [backward] on a node without operands (and without a callable
    of its own) returns; it sets the gradient of the node to 1.0 and
    leaves every other node as it is. *)
Theorem backward_without_operands `{PyRuntime} (h : Heap) (r : Ref) (n : Value) :
  h !! r = Some n → prev n = [] → _backward n = None →
  Value.backward r h = (alter (with_grad 1) r h, Ok tt) ∧
  grad <$> alter (with_grad 1) r h !! r = Some 1%float ∧
  ∀ i, i ≠ r → alter (with_grad 1) r h !! i = h !! i.
Proof.
  intros E P K. split; [by eapply backward_no_operands|]. split.
  - by rewrite list_lookup_alter_eq, E.
  - intros i N. by rewrite list_lookup_alter_ne.
Qed.

(** X8.  When the loop of [backward] comes to a node, the gradient of the
    node is final: with [topo] the order that [backward] computes, [h0] the
    store after the reset and the seed, and the reversed order split at
    [v], the rounds from [v] on end in the store that [backward] ends in,
    and there [v] has the gradient it had when its round began.  Every
    consumer of [v] has handed its share over by then. *)
Theorem gradient_final_when_propagated `{PyRuntime} (h : Heap) (r : Ref)
    (visited : gset Ref) (topo l1 l2 : list Ref) (v : Ref) (h0 h1 h2 : Heap)
    (res : Except unit) :
  built h → r < length h →
  Value.build_topo (S (length h)) h r (∅, []) = Some (visited, topo) →
  reverse topo = l1 ++ v :: l2 →
  (Value.reset topo;; set_grad r 1%float) h = (h0, Ok tt) →
  Value.propagate l1 h0 = (h1, Ok tt) →
  Value.propagate (v :: l2) h1 = (h2, res) →
  Value.backward r h = (h2, res) ∧ grad <$> h2 !! v = grad <$> h1 !! v.
Proof.
  intros Hb L Et Er E0 E1 E2. destruct (built_wf h Hb) as [wf Hk].
  destruct (backward_split _ _ _ _ _ Et E0) as [Eb G0]. split.
  - rewrite Eb, Er, propagate_app. by rewrite (bind_ok _ _ _ _ _ E1).
  - f_equal. eapply (propagate_rest_final h r); try done.
    eapply grad_only_trans; [exact G0|].
    eapply grad_only_mono; [|by eapply (propagate_part_writes h)]. done.
Qed.

(** X9.  The chain rule at an operand with one consumer.  Let [p] be the
    operand at position [k] of the node [v] under the root [r], and of no
    other node under [r] and at no other position.  After a [backward]
    that returns, the gradient of [p] is [0.0 + g], where [g] is the
    gradient at position [k] of what the [backward] of the operation of
    [v] gives on the final gradient of [v] and the values of the operands
    of [v]. *)
Theorem single_consumer_gradient `{PyRuntime} (h : Heap) (r : Ref) (h' : Heap)
    (v : Ref) (nv : Value) (o : Operation) (p : Ref) (k : nat) :
  built h → r < length h →
  Value.backward r h = (h', Ok tt) →
  reachable h r v → h !! v = Some nv → op nv = Some o → prev nv !! k = Some p →
  (∀ u nu j, reachable h r u → h !! u = Some nu → prev nu !! j = Some p → u = v ∧ j = k) →
  ∃ gv inputs grads g,
    grad <$> h' !! v = Some gv ∧
    Forall2 (λ q x, value <$> h !! q = Some x) (prev nv) inputs ∧
    Operation.backward o gv inputs = Ok grads ∧
    grads !! k = Some g ∧
    grad <$> h' !! p = Some (0 + g)%float.
Proof.
  intros Hb L. destruct (built_wf h Hb) as [wf Hk]. by apply backward_single_consumer.
Qed.




(** X2.  No two classes of operations print alike: the symbol in a
    drawing of the graph tells which operation a node came from. *)
Theorem str_injective (o1 o2 : Operation) :
  Operation.__str__ o1 = Operation.__str__ o2 → o1 = o2.
Proof. by destruct o1, o2. Qed.



(** X14.  The drawing is well formed: no name is declared twice (the
    boxes are named by the identities of the nodes, the circles by these
    with [op_] in front), and every edge joins two declared names. *)
Theorem visualize_well_formed `{PyRuntime} `{PyFormat} (h : Heap) (r : Ref)
    (filename format : string) (calls : list DotCall) :
  built h → r < length h →
  visualize r filename format h = Some calls →
  NoDup (node_names calls) ∧
  ∀ t hd, (t, hd) ∈ edges calls → t ∈ node_names calls ∧ hd ∈ node_names calls.
Proof.
  intros Hb L E. destruct (built_wf h Hb) as [wf _].
  destruct (visualize_body h r filename format wf L) as (nodes & body & ND & R & E' & P).
  rewrite E' in E. inversion E; subst calls. clear E E'.
  assert (∀ l : list DotCall,
    node_names (Digraph format ::
      attr None [("bgcolor", "white")] ::
      attr (Some "node") [("shape", "record"); ("style", "filled");
                          ("fontname", "Helvetica"); ("fontsize", "12")] ::
      l ++ [render filename false true]) = node_names l) as Nn.
  { intros l. unfold node_names. simpl. rewrite omap_app. simpl. by rewrite app_nil_r. }
  assert (∀ l : list DotCall,
    edges (Digraph format ::
      attr None [("bgcolor", "white")] ::
      attr (Some "node") [("shape", "record"); ("style", "filled");
                          ("fontname", "Helvetica"); ("fontsize", "12")] ::
      l ++ [render filename false true]) = edges l) as Ne.
  { intros l. unfold edges. simpl. rewrite omap_app. simpl. by rewrite app_nil_r. }
  cbn [app].
  rewrite Nn. rewrite Ne.
  assert (node_names body ≡ₚ node_names (nodes ≫= calls_of h)) as Pn
    by (unfold node_names; by rewrite P).
  assert (edges body ≡ₚ edges (nodes ≫= calls_of h)) as Pe
    by (unfold edges; by rewrite P).
  split.
  - rewrite Pn. by apply node_names_NoDup.
  - intros t hd. rewrite Pe, Pn. by apply (edges_declared h r).
Qed.


(** ** The theorems at work on the sample store *)

#[local] Existing Instance sample_runtime.

(** Scenario 1 of the specification: [x = 2.0; y = 3.0; z = x * y + x]
    gives [z.value == 8.0], and after [z.backward()] [x.grad == 4.0] and
    [y.grad == 2.0]. *)
Example scenario_1 :
  (x ← Value.__init__ 2%float [] None None None;
   y ← Value.__init__ 3%float [] None None None;
   xy ← Value.__mul__ x (IsValue y);
   z ← Value.__add__ xy (IsValue x);
   Value.backward z;;
   nx ← read x; ny ← read y; nz ← read z;
   mret (value nz, grad nx, grad ny)) []
  = ((Value.backward 3 sample_heap).1, Ok (8, 4, 2)%float).
Proof. vm_compute. reflexivity. Qed.

Lemma sample_heap_built : built sample_heap.
Proof.
  apply (built_binary (take 3 sample_heap) Add false Value.__add__ 2 (IsValue 0) _ (Ok 3));
    [|unfold binary_operators; apply list_elem_of_here|vm_compute; reflexivity].
  apply (built_binary (take 2 sample_heap) Mul false Value.__mul__ 0 (IsValue 1) _ (Ok 2));
    [|unfold binary_operators; do 2 apply list_elem_of_further; apply list_elem_of_here
     |vm_compute; reflexivity].
  apply (built_leaf (take 1 sample_heap) 3%float None _ (Ok 1)); [|vm_compute; reflexivity].
  apply (built_leaf [] 2%float None _ (Ok 0)); [apply built_empty|vm_compute; reflexivity].
Qed.


Lemma backward_again_witness :
  let h1 := (Value.backward 3 sample_heap).1 in
  Value.backward 3 sample_heap = (h1, Ok tt) ∧
  Value.backward 3 h1 = (h1, Ok tt) ∧
  ∀ h2 res2, Value.backward 3 h1 = (h2, res2) →
    ∀ v, reachable sample_heap 3 v → grad <$> h2 !! v = grad <$> h1 !! v.
Proof.
  intros h1. split; [vm_compute; reflexivity|].
  apply (backward_again sample_heap 3 h1 (Ok tt));
    [apply sample_heap_built|vm_compute; reflexivity].
Defined.

Lemma backward_frame_witness :
  let h' := (Value.backward 3 sample_heap).1 in
  length h' = length sample_heap ∧
  ∀ i n, sample_heap !! i = Some n →
    ∃ n', h' !! i = Some n' ∧
      value n' = value n ∧ op n' = op n ∧ prev n' = prev n ∧ label n' = label n ∧
      _backward n' = _backward n ∧
      (¬ reachable sample_heap 3 i → grad n' = grad n).
Proof.
  intros h'.
  apply (backward_frame sample_heap 3 h' (Ok tt));
    [apply sample_heap_built|vm_compute; reflexivity].
Defined.

Lemma square_gradient_witness :
  ∃ h1 y h2 g,
    Value.__mul__ (H:=sample_runtime) 0 (IsValue 0) [leaf 3] = (h1, Ok y) ∧
    Value.backward (H:=sample_runtime) y h1 = (h2, Ok tt) ∧
    grad <$> h2 !! 0 = Some g ∧
    g = (0 + 1 * 3 + 1 * 3)%float ∧
    (g =? 2 * 3)%float = true.
Proof.
  apply (square_gradient (H:=sample_runtime) [leaf 3] 0 (leaf 3)); reflexivity.
Defined.


Lemma log_domain_error_witness :
  Value.log (H:=sample_runtime) 0 [leaf 0] = ([leaf 0], Raise ValueError).
Proof.
  apply (log_domain_error (H:=sample_runtime) [leaf 0] 0 (leaf 0)); [|reflexivity..].
  intros x Hx. simpl. by rewrite Hx.
Defined.

Lemma constructed_node_witness :
  ∃ other_ref,
    (IsValue (H:=sample_runtime) 1 = IsValue other_ref ∨
     ∃ lit x, IsValue 1 = NotValue lit ∧ py_float lit = Ok x ∧
       other_ref = length [leaf 2; leaf 3] ∧
       (Value.__mul__ (H:=sample_runtime) 0 (IsValue 1) [leaf 2; leaf 3]).1 !! other_ref
       = Some (leaf x)) ∧
    built_by (H:=sample_runtime) Mul [0; other_ref]
      (Value.__mul__ (H:=sample_runtime) 0 (IsValue 1) [leaf 2; leaf 3]).1 2 ∧
    (∀ i n, [leaf 2; leaf 3] !! i = Some n →
       (Value.__mul__ (H:=sample_runtime) 0 (IsValue 1) [leaf 2; leaf 3]).1 !! i = Some n) ∧
    [leaf 2; leaf 3] !! 2 = None.
Proof.
  apply (proj1 (constructed_node (H:=sample_runtime)) Mul false Value.__mul__ 0 (IsValue 1)
           [leaf 2; leaf 3]); [|reflexivity].
  unfold binary_operators. do 2 apply list_elem_of_further. apply list_elem_of_here.
Defined.

Lemma coercion_failure_witness :
  Value.__add__ (H:=sample_runtime) 0 (NotValue (None : @PyObj sample_runtime)) [leaf 2]
  = ([leaf 2], Raise TypeError).
Proof.
  apply (coercion_failure (H:=sample_runtime) Add false Value.__add__ 0 None TypeError [leaf 2]);
    [|reflexivity].
  unfold binary_operators. apply list_elem_of_here.
Defined.

Lemma division_by_zero_witness :
  (∀ a na, [leaf 1; leaf 0] !! a = Some na →
     Value.__truediv__ (H:=sample_runtime) a (IsValue 1) [leaf 1; leaf 0]
     = ([leaf 1; leaf 0], Raise ZeroDivisionError)) ∧
  (∀ lit x, py_float (PyRuntime:=sample_runtime) lit = Ok x →
     Value.__rtruediv__ (H:=sample_runtime) 1 (NotValue lit) [leaf 1; leaf 0]
     = ([leaf 1; leaf 0] ++ [leaf x], Raise ZeroDivisionError)).
Proof.
  apply (division_by_zero (H:=sample_runtime) [leaf 1; leaf 0] 1 (leaf 0)); reflexivity.
Defined.


(** More of the sample store, and a store with a quotient that cannot be
    differentiated. *)

Lemma sample_heap_lookup i n :
  sample_heap !! i = Some n → i = 0 ∨ i = 1 ∨ i = 2 ∨ i = 3.
Proof. intros E. apply lookup_lt_Some in E. simpl in E. lia. Qed.


Lemma sample_heap_consumer_of_y u nu j :
  reachable sample_heap 3 u → sample_heap !! u = Some nu → prev nu !! j = Some 1 →
  u = 2 ∧ j = 1.
Proof.
  intros _ E Hj. destruct (sample_heap_lookup _ _ E) as [-> | [-> | [-> | ->]]];
    inversion E; subst nu; simpl in Hj;
    destruct j as [|[|[|j]]]; by inversion Hj.
Qed.



Lemma backward_one_gradient_per_input_witness :
  length [2; 3]%float = Operation.arity Mul ∧
  length [1 * 3; 1 * 2]%float = length [2; 3]%float ∧
  ∀ v inputs', Operation.forward Mul inputs' = Ok v →
    length inputs' = length [1 * 3; 1 * 2]%float.
Proof.
  apply (backward_one_gradient_per_input Mul 1%float [2; 3]%float). reflexivity.
Defined.

Lemma str_injective_witness : Tanh = Tanh.
Proof. apply (str_injective Tanh Tanh). reflexivity. Defined.


Lemma value_is_forward_of_operands_witness :
  length [2; 0] = Operation.arity Add ∧
  ∃ inputs, Forall2 (λ p x, value <$> sample_heap !! p = Some x) [2; 0] inputs ∧
    Operation.forward Add inputs = Ok 8%float.
Proof.
  apply (value_is_forward_of_operands sample_heap 3
           {| value := 8; grad := 0; op := Some Add; prev := [2; 0];
              _backward := None; label := None |});
    [apply sample_heap_built|reflexivity].
Defined.



Lemma backward_without_operands_witness :
  Value.backward 1 [leaf 2; leaf 3] = (alter (with_grad 1) 1 [leaf 2; leaf 3], Ok tt) ∧
  grad <$> alter (with_grad 1) 1 [leaf 2; leaf 3] !! 1 = Some 1%float ∧
  ∀ i, i ≠ 1 → alter (with_grad 1) 1 [leaf 2; leaf 3] !! i = [leaf 2; leaf 3] !! i.
Proof.
  apply (backward_without_operands [leaf 2; leaf 3] 1 (leaf 3)); reflexivity.
Defined.

Lemma gradient_final_when_propagated_witness :
  let h0 := ((Value.reset [0; 1; 2; 3];; set_grad 3 1%float) sample_heap).1 in
  let h1 := (Value.propagate [3; 2; 1] h0).1 in
  let h2 := (Value.propagate [0] h1).1 in
  Value.backward 3 sample_heap = (h2, Ok tt) ∧ grad <$> h2 !! 0 = grad <$> h1 !! 0.
Proof.
  intros h0 h1 h2.
  apply (gradient_final_when_propagated sample_heap 3
           (default ∅ (fst <$> Value.build_topo 5 sample_heap 3 (∅, [])))
           [0; 1; 2; 3] [3; 2; 1] [] 0 h0 h1 h2 (Ok tt));
    [apply sample_heap_built|simpl; lia|vm_compute; reflexivity..].
Defined.

Lemma single_consumer_gradient_witness :
  ∃ gv inputs grads g,
    grad <$> (Value.backward 3 sample_heap).1 !! 2 = Some gv ∧
    Forall2 (λ q x, value <$> sample_heap !! q = Some x) [0; 1] inputs ∧
    Operation.backward Mul gv inputs = Ok grads ∧
    grads !! 1 = Some g ∧
    grad <$> (Value.backward 3 sample_heap).1 !! 1 = Some (0 + g)%float.
Proof.
  apply (single_consumer_gradient sample_heap 3 _ 2
           {| value := 6; grad := 0; op := Some Mul; prev := [0; 1];
              _backward := None; label := None |} Mul 1 1);
    [apply sample_heap_built|simpl; lia|vm_compute; reflexivity
    |eapply (reachable_parent sample_heap 3); [reflexivity|left]
    |reflexivity..|apply sample_heap_consumer_of_y].
Defined.





#[local] Existing Instance sample_format.


Lemma visualize_well_formed_witness :
  let calls := default [] (visualize 3 "graph" "svg" sample_heap) in
  NoDup (node_names calls) ∧
  ∀ t hd, (t, hd) ∈ edges calls → t ∈ node_names calls ∧ hd ∈ node_names calls.
Proof.
  intros calls.
  apply (visualize_well_formed sample_heap 3 "graph" "svg" calls);
    [apply sample_heap_built|simpl; lia|vm_compute; reflexivity].
Defined.


